(** * go-rest-queue: a shallow embedding of [main.go]

    The program is a small HTTP message queue.  Two process-wide maps carry
    all of its state: [store.data] (queue name -> buffered messages) and
    [channelPool.pool] (queue name -> channels of the GET requests that are
    waiting for a message).  Every method of the two structures runs under
    that structure's mutex, so a method is one atomic step of the model; a
    handler is a sequence of such steps.

    Go values are modelled as follows:
    - [string] as Rocq's [string];
    - a slice as a [list] (a [nil] slice and an empty slice are both [[]]);
    - a [map[string][]T] as [gmap string (list T)], where an absent key and a
      key bound to [[]] are different, as they are in Go;
    - a [chan string] value as [nilChan] or the index of a channel made with
      [make(chan string, 1)] in a heap of channel states;
    - [int64] and [time.Duration] as [Z] with the wrap-around written out;
    - a run-time panic and a goroutine parked on a channel as outcomes of a
      small state monad. *)

From Stdlib Require Import ZArith String Ascii List Lia Bool.
From stdpp Require Import base option list gmap strings.

Local Open Scope string_scope.
Local Open Scope list_scope.
Local Open Scope Z_scope.

(** ** Slices *)

(** The run-time panics of the Go runtime that the program can raise. *)
Inductive panic : Type :=
| MakesliceLenOutOfRange
| IndexOutOfRange
| SendOnClosedChannel
| CloseOfClosedChannel
| CloseOfNilChannel.

(** A pure computation that returns a value or panics. *)
Inductive result (T : Type) : Type :=
| Ok (v : T)
| Panics (e : panic).
Arguments Ok {T} v.
Arguments Panics {T} e.

Module Slice.
Section Slice.
Context {A : Type}.

(** [make([]T, n)]: [n] zero values, or a panic if [n] is negative. *)
Definition make (zero : A) (n : Z) : result (list A) :=
  if n <? 0 then Panics MakesliceLenOutOfRange
  else Ok (replicate (Z.to_nat n) zero).

(** [copy(dst, src)]: overwrites the first [min(len(dst), len(src))]
    elements of [dst]; the value returned here is [dst] afterwards. *)
Definition copy (dst src : list A) : list A :=
  let n := Nat.min (length dst) (length src) in
  take n src ++ drop n dst.

(** [len(s)] as a Go [int]. *)
Definition len (s : list A) : Z := Z.of_nat (length s).

End Slice.
End Slice.

(** ** Program state *)

(** A value of type [chan string]: the zero value [nil], or a channel made
    by [make(chan string, 1)], named by its index in the heap of channels.
    [==] on channels is identity, which is equality of these values. *)
Inductive chan : Type :=
| nilChan
| Chan (id : nat).

#[global] Instance chan_eq_dec : EqDecision chan.
Proof. solve_decision. Defined.

(** The state of a channel of capacity 1: the buffered element, if any, and
    whether [close] was called. *)
Record chanState : Type := mkChan {
  buf : option string;
  closed : bool;
}.

(** [store.data], [channelPool.pool] and the channels made so far. *)
Record State : Type := mkState {
  data : gmap string (list string);
  pool : gmap string (list chan);
  chans : list chanState;
}.

Definition set_data (f : gmap string (list string) -> gmap string (list string))
  (st : State) : State :=
  mkState (f (data st)) (pool st) (chans st).

Definition set_pool (f : gmap string (list chan) -> gmap string (list chan))
  (st : State) : State :=
  mkState (data st) (f (pool st)) (chans st).

Definition set_chans (f : list chanState -> list chanState) (st : State) : State :=
  mkState (data st) (pool st) (f (chans st)).

(** [newStore()] and [NewHandlerPool()]: both maps empty, no channel made. *)
Definition newState : State := mkState ∅ ∅ [].

(** Reading [m[key]] without the comma-ok form yields the zero value (a nil
    slice) for an absent key. *)
Definition index {V : Type} (m : gmap string (list V)) (key : string) : list V :=
  default [] (m !! key).

(** ** The outcome of running a piece of a handler

    [Done]: it ran to its end.  [Panic]: the goroutine panicked; the mutex
    is released by the deferred [Unlock] and net/http recovers, so the state
    at the panic is the state the server continues from.  [Blocked c]: the
    goroutine is parked on channel [c]; when this arises inside a pool method
    the pool mutex is still held. *)
Inductive outcome (T : Type) : Type :=
| Done (v : T) (st : State)
| Panic (e : panic) (st : State)
| Blocked (c : chan) (st : State).
Arguments Done {T} v st.
Arguments Panic {T} e st.
Arguments Blocked {T} c st.

Definition M (T : Type) : Type := State -> outcome T.

Definition ret {T : Type} (v : T) : M T := fun st => Done v st.

Definition bind {T U : Type} (m : M T) (k : T -> M U) : M U :=
  fun st =>
    match m st with
    | Done v st' => k v st'
    | Panic e st' => Panic e st'
    | Blocked c st' => Blocked c st'
    end.

Definition lift {T : Type} (r : result T) : M T :=
  fun st => match r with Ok v => Done v st | Panics e => Panic e st end.

Definition modify (f : State -> State) : M unit := fun st => Done tt (f st).
Definition gets {T : Type} (f : State -> T) : M T := fun st => Done (f st) st.

Declare Scope go_scope.
Delimit Scope go_scope with go.
Notation "'do' x <- m ; k" := (bind m (fun x => k))
  (at level 10, x name, m at level 100, k at level 200,
   format "'[v' 'do'  x  <-  m ; '/' k ']'") : go_scope.
Notation "'do' ' pat <- m ; k" := (bind m (fun x => match x with pat => k end))
  (at level 10, pat pattern, m at level 100, k at level 200,
   format "'[v' 'do'  ' pat  <-  m ; '/' k ']'") : go_scope.
Notation "'run' m ; k" := (bind m (fun _ => k))
  (at level 10, m at level 100, k at level 200,
   format "'[v' 'run'  m ; '/' k ']'") : go_scope.
Local Open Scope go_scope.

(** The state an outcome leaves behind. *)
Definition final {T : Type} (o : outcome T) : State :=
  match o with
  | Done _ st | Panic _ st | Blocked _ st => st
  end.

(** [defer d] around a body: [d] runs when the body returns and also when it
    panics (the panic then continues). *)
Definition defer {T : Type} (d : M unit) (body : M T) : M T :=
  fun st =>
    match body st with
    | Done v st' =>
        match d st' with
        | Done _ st'' => Done v st''
        | Panic e st'' => Panic e st''
        | Blocked c st'' => Blocked c st''
        end
    | Panic e st' =>
        match d st' with
        | Done _ st'' => Panic e st''
        | Panic e' st'' => Panic e' st''
        | Blocked c st'' => Blocked c st''
        end
    | Blocked c st' => Blocked c st'
    end.

(** ** Message store: [store.push], [store.pop], [popSlice] *)

(** [popSlice]: the first element and a fresh slice holding the rest. *)
Definition popSlice (s : list string) : string * list string :=
  match s with
  | [] => ("", [])
  | item :: _ =>
      let new := replicate (length s - 1) "" in
      (item, Slice.copy new (drop 1 s))
  end.

(** [store.push]: [s.data[key] = append(s.data[key], msg)]. *)
Definition push (key msg : string) : M unit :=
  modify (set_data (fun d => <[key := index d key ++ [msg]]> d)).

(** [store.pop]. *)
Definition pop (key : string) : M (string * bool) :=
  fun st =>
    match data st !! key with
    | None => Done ("", false) st
    | Some values =>
        if (Slice.len values =? 0)%Z then Done ("", false) st
        else
          let '(v, newValues) := popSlice values in
          if (Slice.len newValues =? 0)%Z
          then Done (v, true) (set_data (delete key) st)
          else Done (v, true) (set_data (<[key := newValues]>) st)
    end.


(** ** Channels of capacity 1 *)

(** [make(chan string, 1)]: a new open, empty channel. *)
Definition makeChan : M chan :=
  fun st => Done (Chan (length (chans st)))
                 (set_chans (fun h => h ++ [mkChan None false]) st).

(** [c <- msg].  A send on a nil channel parks the goroutine for ever, a
    send on a closed channel panics, a send on a full channel parks the
    goroutine until the element is received.  An index that names no made
    channel is treated as nil; no reachable state holds one. *)
Definition send (c : chan) (msg : string) : M unit :=
  fun st =>
    match c with
    | nilChan => Blocked c st
    | Chan id =>
        match chans st !! id with
        | None => Blocked c st
        | Some cs =>
            if closed cs then Panic SendOnClosedChannel st
            else match buf cs with
                 | Some _ => Blocked c st
                 | None => Done tt (set_chans (<[id := mkChan (Some msg) false]>) st)
                 end
        end
    end.

(** [<-c]: takes the buffered element; on a closed and drained channel it
    yields the zero value; otherwise the goroutine stays parked. *)
Definition recv (c : chan) : M string :=
  fun st =>
    match c with
    | nilChan => Blocked c st
    | Chan id =>
        match chans st !! id with
        | None => Blocked c st
        | Some cs =>
            match buf cs with
            | Some m => Done m (set_chans (<[id := mkChan None (closed cs)]>) st)
            | None => if closed cs then Done "" st else Blocked c st
            end
        end
    end.

(** [close(c)]. *)
Definition close (c : chan) : M unit :=
  fun st =>
    match c with
    | nilChan => Panic CloseOfNilChannel st
    | Chan id =>
        match chans st !! id with
        | None => Panic CloseOfNilChannel st
        | Some cs =>
            if closed cs then Panic CloseOfClosedChannel st
            else Done tt (set_chans (<[id := mkChan (buf cs) true]>) st)
        end
    end.

(** ** Waiter registry: [channelPool] *)

(** [handlers[0]]. *)
Definition at0 {A : Type} (s : list A) : result A :=
  match s with
  | [] => Panics IndexOutOfRange
  | x :: _ => Ok x
  end.

(** The [for i, v := range s] loop of [removeItem]; [rest] is the part of [s]
    still to visit and [i] the index of its first element.  In
    [append(s[:i], s[i+1:]...)] the result is written over the backing array
    of [s], which no one reads afterwards: only its value matters. *)
Fixpoint removeItem_range (s new : list chan) (item : chan)
  (i : nat) (rest : list chan) : list chan :=
  match rest with
  | [] => s
  | v :: rest' =>
      if decide (v = item) then
        if (Slice.len s =? 1)%Z then []
        else Slice.copy new (take i s ++ drop (S i) s)
      else removeItem_range s new item (S i) rest'
  end.

(** [removeItem]. *)
Definition removeItem (s : list chan) (item : chan) : result (list chan) :=
  match Slice.make nilChan (Slice.len s - 1) with
  | Panics e => Panics e
  | Ok new => Ok (removeItem_range s new item 0 s)
  end.

(** [channelPool.addToQueue]. *)
Definition addToQueue (queueName : string) (ch : chan) : M unit :=
  modify (set_pool (fun p => <[queueName := index p queueName ++ [ch]]> p)).

(** [channelPool.removeFromQueue]. *)
Definition removeFromQueue (queueName : string) (ch : chan) : M unit :=
  do p <- gets pool;
  do new <- lift (removeItem (index p queueName) ch);
  if (Slice.len new =? 0)%Z
  then modify (set_pool (delete queueName))
  else modify (set_pool (<[queueName := new]>)).

(** [channelPool.sendMessage]. *)
Definition sendMessage (key msg : string) : M bool :=
  do p <- gets pool;
  match p !! key with
  | Some handlers =>
      do c <- lift (at0 handlers);
      run send c msg;
      ret true
  | None => ret false
  end.

(** ** Request parsing *)

(** The part of [*url.URL] the handlers read: [Path], and the parsed query
    [u.Query()], a [url.Values] (key -> values in order of appearance). *)
Record URL : Type := mkURL {
  Path : string;
  Query : gmap string (list string);
}.

(** [url.Values.Get]: the first value of the key, [""] if there is none. *)
Definition Get (v : gmap string (list string)) (key : string) : string :=
  match index v key with
  | [] => ""
  | x :: _ => x
  end.

(** [strings.Index(s, sep)] and the two slicings that follow it in
    [strings.SplitN], for a one-byte separator: the text before the first
    separator and the text after it. *)
Fixpoint cut (sep : ascii) (s : string) : option (string * string) :=
  match s with
  | EmptyString => None
  | String c s' =>
      if Ascii.eqb c sep then Some (EmptyString, s')
      else match cut sep s' with
           | Some (a, b) => Some (String c a, b)
           | None => None
           end
  end.

(** The loop of [strings.SplitN]: at most [cuts] separators are consumed and
    the last piece is the unsplit remainder. *)
Fixpoint splitLoop (sep : ascii) (cuts : nat) (s : string) : list string :=
  match cuts with
  | O => [s]
  | S cuts' =>
      match cut sep s with
      | None => [s]
      | Some (a, b) => a :: splitLoop sep cuts' b
      end
  end.

(** [strings.SplitN(s, sep, n)] for a one-byte [sep] and [n >= 0]. *)
Definition SplitN (s : string) (sep : ascii) (n : nat) : list string :=
  match n with
  | O => []
  | S cuts => splitLoop sep cuts s
  end.

(** [getQueueName]. *)
Definition getQueueName (url : URL) : string * bool :=
  let path := SplitN (Path url) "/"%char 3 in
  if negb (Slice.len path =? 2)%Z then ("", false)
  else (nth 1 path "", true).

(** [getQueueMessage]. *)
Definition getQueueMessage (u : URL) : string * bool :=
  let msg := Get (Query u) "v" in
  (msg, negb (String.eqb msg "")).

(** *** [strconv.ParseInt(s, 10, 64)] *)

Definition digitVal (c : ascii) : option Z :=
  let n := Z.of_nat (nat_of_ascii c) in
  if (48 <=? n) && (n <=? 57) then Some (n - 48) else None.

Fixpoint parseDigits (acc : Z) (s : string) : option Z :=
  match s with
  | EmptyString => Some acc
  | String c s' =>
      match digitVal c with
      | Some d => parseDigits (acc * 10 + d) s'
      | None => None
      end
  end.

(** The magnitude: one or more decimal digits. *)
Definition parseMagnitude (s : string) : option Z :=
  match s with
  | EmptyString => None
  | _ => parseDigits 0 s
  end.

(** [Some t] when [ParseInt] returns [t] with a nil error: an optional sign,
    then digits, with the value in the range of [int64].  A syntax error or
    a range error is [None]. *)
Definition ParseInt (s : string) : option Z :=
  match s with
  | EmptyString => None
  | String c s' =>
      let '(neg, digits) :=
        if Ascii.eqb c "+"%char then (false, s')
        else if Ascii.eqb c "-"%char then (true, s')
        else (false, s) in
      match parseMagnitude digits with
      | None => None
      | Some un =>
          let cutoff := 2 ^ 63 in
          if negb neg && (cutoff <=? un) then None
          else if neg && (cutoff <? un) then None
          else Some (if neg then - un else un)
      end
  end.

(** *** [time.Duration] *)

(** [int64] arithmetic wraps around. *)
Definition wrap64 (z : Z) : Z := (z + 2 ^ 63) mod 2 ^ 64 - 2 ^ 63.

(** [time.Second], in nanoseconds. *)
Definition Second : Z := 1000000000.

(** [getRequestTimeout]: the duration in nanoseconds and the presence flag. *)
Definition getRequestTimeout (u : URL) : Z * bool :=
  let timeout := Get (Query u) "timeout" in
  if String.eqb timeout "" then (0, false)
  else match ParseInt timeout with
       | None => (0, false)
       | Some t => (wrap64 (t * Second), true)
       end.

(** ** Handlers *)

(** What a handler wrote to its [http.ResponseWriter]: the status code and
    the body.  A handler that writes nothing answers 200 with an empty body. *)
Record response : Type := mkResp {
  status : Z;
  body : string;
}.

Definition badRequest : response := mkResp 400 "".
Definition notFound : response := mkResp 404 "".
Definition okResp (msg : string) : response := mkResp 200 msg.

(** Lines 93-98 of [putQueueHandler]: hand the message to a waiting GET if
    there is one, else store it. *)
Definition produce (name msg : string) : M unit :=
  do isSended <- sendMessage name msg;
  if negb isSended then push name msg else ret tt.

(** [putQueueHandler]. *)
Definition putQueueHandler (u : URL) : M response :=
  let '(name, ok) := getQueueName u in
  if negb ok then ret badRequest
  else
    let '(msg, ok) := getQueueMessage u in
    if negb ok then ret badRequest
    else
      run produce name msg;
      ret (okResp "").

(** Where a GET handler stands.  [Selecting]: parked in the [select], its
    channel registered and the deferred [close(ch)] pending.  [Received] and
    [Expired]: one case of the [select] was taken and its body has not run
    yet; the pool mutex is not held at that point, so other handlers may run
    in between. *)
Inductive getState : Type :=
| Replied (r : response)
| Selecting (name : string) (ch : chan) (timeout : Z)
| Received (name : string) (ch : chan) (msg : string)
| Expired (name : string) (ch : chan).

(** Lines 112-151 of [getQueueHandler], up to the [select]. *)
Definition consume (name : string) (timeout : Z) (hasTimeout : bool) : M getState :=
  do '(msg, ok) <- pop name;
  if negb ok && negb hasTimeout then ret (Replied notFound)
  else if ok then ret (Replied (okResp msg))
  else if hasTimeout then
    do ch <- makeChan;
    run addToQueue name ch;
    ret (Selecting name ch timeout)
  else ret (Replied (okResp "")).

(** [getQueueHandler], up to the [select]. *)
Definition getQueueHandler (u : URL) : M getState :=
  let '(name, ok) := getQueueName u in
  if negb ok then ret (Replied badRequest)
  else
    let '(timeout, hasTimeout) := getRequestTimeout u in
    consume name timeout hasTimeout.

(** One further step of a GET handler.  [fired] tells which case a parked
    [select] takes: the timer's, or the receive from the channel (which
    stays parked while the channel is empty). *)
Definition resume (g : getState) (fired : bool) : M getState :=
  match g with
  | Replied r => ret (Replied r)
  | Selecting name ch _ =>
      if fired then ret (Expired name ch)
      else do msg <- recv ch; ret (Received name ch msg)
  | Expired name ch =>
      defer (close ch)
        (run removeFromQueue name ch;
         ret (Replied notFound))
  | Received name ch msg =>
      defer (close ch)
        (run removeFromQueue name ch;
         ret (Replied (okResp msg)))
  end.

(** [queueHandler]: dispatch on the request method. *)
Inductive method : Type := MethodPut | MethodGet | MethodOther.

Definition queueHandler (m : method) (u : URL) : M getState :=
  match m with
  | MethodPut => do r <- putQueueHandler u; ret (Replied r)
  | MethodGet => getQueueHandler u
  | MethodOther => ret (Replied badRequest)
  end.

(** ** Sequences of operations *)

(** [n] produces in a row, and [n] GETs without timeout in a row. *)
Fixpoint produceAll (name : string) (msgs : list string) : M unit :=
  match msgs with
  | [] => ret tt
  | msg :: msgs' => run produce name msg; produceAll name msgs'
  end.

Fixpoint consumeN (name : string) (n : nat) : M (list getState) :=
  match n with
  | O => ret []
  | S n' =>
      do r <- consume name 0 false;
      do rs <- consumeN name n';
      ret (r :: rs)
  end.

(** The atomic operations on the two structures and on channels, and the
    state reached by running a sequence of them from a given state. *)
Inductive op : Type :=
| Push (key msg : string)
| Pop (key : string)
| AddToQueue (name : string) (ch : chan)
| RemoveFromQueue (name : string) (ch : chan)
| SendMessage (key msg : string)
| MakeChan
| Recv (ch : chan)
| Close (ch : chan).

Definition step (o : op) (st : State) : State :=
  match o with
  | Push key msg => final (push key msg st)
  | Pop key => final (pop key st)
  | AddToQueue name ch => final (addToQueue name ch st)
  | RemoveFromQueue name ch => final (removeFromQueue name ch st)
  | SendMessage key msg => final (sendMessage key msg st)
  | MakeChan => final (makeChan st)
  | Recv ch => final (recv ch st)
  | Close ch => final (close ch st)
  end.

Definition exec (ops : list op) (st : State) : State :=
  fold_left (fun s o => step o s) ops st.

(** ** Invariants *)

(** A key is present only while its sequence is non-empty. *)
Definition noEmptyKey {V : Type} (m : gmap string (list V)) : Prop :=
  forall k l, m !! k = Some l -> l <> [].

Definition cleanupInv (st : State) : Prop :=
  noEmptyKey (data st) /\ noEmptyKey (pool st).

(** The list without the first occurrence of [item]: what the loop of
    [removeItem] is meant to compute.  Used only to state its result. *)
Fixpoint withoutFirst (item : chan) (s : list chan) : list chan :=
  match s with
  | [] => []
  | v :: s' => if decide (v = item) then s' else v :: withoutFirst item s'
  end.

(** A handle that no name's sequence holds. *)
Definition unregistered (c : chan) (st : State) : Prop :=
  forall k l, pool st !! k = Some l -> c ∉ l.

(** Operations of requests other than the owner of [c]: they neither
    register [c] nor receive from it nor close it. *)
Definition foreign (c : chan) (o : op) : Prop :=
  match o with
  | AddToQueue _ ch | Recv ch | Close ch => ch <> c
  | _ => True
  end.

(** The state after [GET /jobs?timeout=5] found nothing and registered its
    channel, and a [PUT /jobs?v=m1] was delivered into that channel: the
    handle is still registered and its slot is occupied. *)
Definition deliveredState : State :=
  mkState ∅ {["jobs" := [Chan 0]]} [mkChan (Some "m1") false].

(** ** The server as interleaved handlers

    Every handler is cut at the points where it holds no mutex: each step
    below is one critical section of [store] or of [channelPool], or an
    operation on the handler's own channel.  Handlers of different requests
    interleave step by step. *)

(** Where a handler stands. *)
Inductive thread : Type :=
| PutSend (name msg : string)
| PutPush (name msg : string)
| GetPop (name : string) (timeout : Z) (hasTimeout : bool)
| GetRegister (name : string) (timeout : Z)
| GetSelect (name : string) (ch : chan) (timeout : Z)
| GetReceived (name : string) (ch : chan) (msg : string)
| GetExpired (name : string) (ch : chan)
| GetClose (ch : chan) (r : response)
| Finished (r : response).

(** [queueHandler] up to the first call into the store or the registry. *)
Definition spawn (m : method) (u : URL) : thread :=
  match m with
  | MethodPut =>
      let '(name, ok) := getQueueName u in
      if negb ok then Finished badRequest
      else
        let '(msg, ok) := getQueueMessage u in
        if negb ok then Finished badRequest
        else PutSend name msg
  | MethodGet =>
      let '(name, ok) := getQueueName u in
      if negb ok then Finished badRequest
      else
        let '(timeout, hasTimeout) := getRequestTimeout u in
        GetPop name timeout hasTimeout
  | MethodOther => Finished badRequest
  end.

(** One step of a handler.  [fired] tells which case a parked [select]
    takes.  [make(chan string, 1)] touches nothing shared and is taken
    together with the [addToQueue] that follows it. *)
Definition threadStep (t : thread) (fired : bool) : M thread :=
  match t with
  | PutSend name msg =>
      do isSended <- sendMessage name msg;
      ret (if negb isSended then PutPush name msg else Finished (okResp ""))
  | PutPush name msg =>
      run push name msg;
      ret (Finished (okResp ""))
  | GetPop name timeout hasTimeout =>
      do '(msg, ok) <- pop name;
      if negb ok && negb hasTimeout then ret (Finished notFound)
      else if ok then ret (Finished (okResp msg))
      else if hasTimeout then ret (GetRegister name timeout)
      else ret (Finished (okResp ""))
  | GetRegister name timeout =>
      do ch <- makeChan;
      run addToQueue name ch;
      ret (GetSelect name ch timeout)
  | GetSelect name ch _ =>
      if fired then ret (GetExpired name ch)
      else do msg <- recv ch; ret (GetReceived name ch msg)
  | GetExpired name ch =>
      run removeFromQueue name ch;
      ret (GetClose ch notFound)
  | GetReceived name ch msg =>
      run removeFromQueue name ch;
      ret (GetClose ch (okResp msg))
  | GetClose ch r =>
      run close ch;
      ret (Finished r)
  | Finished r => ret (Finished r)
  end.

(** The shared state and the handlers started so far. *)
Record System : Type := mkSys {
  shared : State;
  threads : list thread;
}.

Definition initSys : System := mkSys newState [].

(** A request arrives, or handler [i] takes its next step. *)
Inductive event : Type :=
| Arrive (m : method) (u : URL)
| Step (i : nat) (fired : bool).

(** A step that stays parked leaves the system as it is and may be taken
    again later; a step that panics ends the run with that panic.  (While a
    [sendMessage] is parked it holds the pool mutex; runs in which other
    handlers enter the pool meanwhile are included here as well.) *)
Definition sysStep (e : event) (sys : System) : result System :=
  match e with
  | Arrive m u => Ok (mkSys (shared sys) (threads sys ++ [spawn m u]))
  | Step i fired =>
      match threads sys !! i with
      | None => Ok sys
      | Some t =>
          match threadStep t fired (shared sys) with
          | Done t' st' => Ok (mkSys st' (<[i := t']> (threads sys)))
          | Panic e _ => Panics e
          | Blocked _ _ => Ok sys
          end
      end
  end.

Fixpoint sysRun (evs : list event) (sys : System) : result System :=
  match evs with
  | [] => Ok sys
  | e :: evs' =>
      match sysStep e sys with
      | Ok sys' => sysRun evs' sys'
      | Panics p => Panics p
      end
  end.

(** The channel a handler holds (made and not yet closed by it), and the
    name under which it has that channel registered. *)
Definition chanOf (t : thread) : option chan :=
  match t with
  | GetSelect _ ch _ | GetReceived _ ch _ | GetExpired _ ch | GetClose ch _ => Some ch
  | _ => None
  end.

Definition regOf (t : thread) : option (string * chan) :=
  match t with
  | GetSelect name ch _ | GetReceived name ch _ | GetExpired name ch => Some (name, ch)
  | _ => None
  end.

(** What holds of the registry in every state the server reaches. *)
Record wf (sys : System) : Prop := mkWf {
  wf_keys : noEmptyKey (pool (shared sys));
  wf_nodup : forall name l, pool (shared sys) !! name = Some l -> NoDup l;
  wf_owner : forall name l c,
    pool (shared sys) !! name = Some l -> c ∈ l ->
    exists i t, threads sys !! i = Some t /\ regOf t = Some (name, c);
  wf_open : forall i t c,
    threads sys !! i = Some t -> chanOf t = Some c ->
    exists id cs,
      c = Chan id /\ chans (shared sys) !! id = Some cs /\ closed cs = false;
  wf_unique : forall i j t t' c,
    threads sys !! i = Some t -> threads sys !! j = Some t' ->
    chanOf t = Some c -> chanOf t' = Some c -> i = j;
  wf_registered : forall i t name c,
    threads sys !! i = Some t -> regOf t = Some (name, c) ->
    c ∈ index (pool (shared sys)) name;
}.


(** * Properties *)

(** ** Slices *)

Lemma copy_same_length {A : Type} (dst src : list A) :
  length dst = length src -> Slice.copy dst src = src.
Proof.
  intros H. unfold Slice.copy. rewrite H, Nat.min_id.
  rewrite firstn_all. rewrite drop_ge by lia. apply app_nil_r.
Qed.

Lemma make_nonneg {A : Type} (zero : A) (n : nat) :
  Slice.make zero (Z.of_nat n) = Ok (replicate n zero).
Proof.
  unfold Slice.make. destruct (Z.ltb_spec (Z.of_nat n) 0); [lia |].
  by rewrite Nat2Z.id.
Qed.

Lemma popSlice_cons (x : string) (s : list string) :
  popSlice (x :: s) = (x, s).
Proof.
  unfold popSlice. cbn [length drop]. rewrite Nat.sub_1_r. cbn [Nat.pred].
  f_equal. rewrite drop_0. apply copy_same_length, length_replicate.
Qed.

(** ** Helper lemmas on the monad and on the state *)

Lemma bind_Done {T U : Type} (m : M T) (k : T -> M U) (st st' : State) (v : T) :
  m st = Done v st' -> bind m k st = k v st'.
Proof. unfold bind. by intros ->. Qed.

Lemma index_Some {V : Type} (m : gmap string (list V)) (key : string) (l : list V) :
  m !! key = Some l -> index m key = l.
Proof. unfold index. by intros ->. Qed.

Lemma index_None {V : Type} (m : gmap string (list V)) (key : string) :
  m !! key = None -> index m key = [].
Proof. unfold index. by intros ->. Qed.

Lemma index_cons {V : Type} (m : gmap string (list V)) (key : string)
  (x : V) (l : list V) :
  index m key = x :: l -> m !! key = Some (x :: l).
Proof. unfold index. destruct (m !! key); simpl; congruence. Qed.

Lemma index_nil {V : Type} (m : gmap string (list V)) (key : string) :
  index m key = [] <-> m !! key = None \/ m !! key = Some [].
Proof.
  unfold index. destruct (m !! key) as [l|]; simpl; split.
  - intros ->. by right.
  - intros [H | H]; congruence.
  - by left.
  - done.
Qed.

Lemma len_zero {A : Type} (l : list A) : (Slice.len l =? 0)%Z = true <-> l = [].
Proof.
  unfold Slice.len. rewrite Z.eqb_eq. destruct l; simpl; split;
    (lia || congruence || done).
Qed.

Lemma len_cons_nonzero {A : Type} (x : A) (l : list A) :
  (Slice.len (x :: l) =? 0)%Z = false.
Proof. apply Z.eqb_neq. unfold Slice.len. simpl. lia. Qed.

(** ** The message store *)

Lemma pop_cons (st : State) (key v : string) (rest : list string) :
  data st !! key = Some (v :: rest) ->
  pop key st =
    Done (v, true)
         (set_data (match rest with [] => delete key | _ => <[key := rest]> end) st).
Proof.
  intros H. unfold pop. rewrite H, len_cons_nonzero, popSlice_cons.
  destruct rest as [|y rest]; [reflexivity |].
  by rewrite len_cons_nonzero.
Qed.

Lemma pop_none (st : State) (key : string) :
  index (data st) key = [] -> pop key st = Done ("", false) st.
Proof.
  intros [H | H]%index_nil; unfold pop; rewrite H; reflexivity.
Qed.

Lemma index_after_pop (d : gmap string (list string)) (key : string)
  (rest : list string) :
  index (match rest with [] => delete key | _ => <[key := rest]> end d) key = rest.
Proof.
  unfold index. destruct rest.
  - by rewrite lookup_delete_eq.
  - by rewrite lookup_insert_eq.
Qed.

(** C4.  [pop] on a name with a non-empty sequence returns its head with
    found = true, leaves the tail under the name, or no key at all when the
    tail is empty, and touches no other name; on a name that is absent or
    bound to an empty sequence it returns found = false and the state is
    unchanged. *)
Theorem pop_contract (st : State) (name : string) :
  (forall v rest, data st !! name = Some (v :: rest) ->
     exists st',
       pop name st = Done (v, true) st' /\
       data st' !! name = (match rest with [] => None | _ => Some rest end) /\
       (forall k, k <> name -> data st' !! k = data st !! k) /\
       pool st' = pool st /\ chans st' = chans st) /\
  (data st !! name = None \/ data st !! name = Some [] ->
     pop name st = Done ("", false) st).
Proof.
  split.
  - intros v rest H. eexists. split; [by apply pop_cons |].
    simpl. repeat split.
    + destruct rest; [by rewrite lookup_delete_eq | by rewrite lookup_insert_eq].
    + intros k Hk.
      destruct rest; [by rewrite lookup_delete_ne | by rewrite lookup_insert_ne].
  - intros H. apply pop_none. by apply index_nil.
Qed.

Lemma pop_contract_witness :
  (exists st',
     pop "jobs" (mkState {["jobs" := ["task1"]]} ∅ []) = Done ("task1", true) st' /\
     data st' !! "jobs" = None) /\
  pop "jobs" newState = Done ("", false) newState.
Proof.
  split.
  - assert (H : data (mkState {["jobs" := ["task1"]]} ∅ []) !! "jobs"
                = Some ["task1"]) by reflexivity.
    destruct (proj1 (pop_contract _ "jobs") "task1" [] H) as (st' & Hpop & Hkey & _).
    exists st'. split; assumption.
  - apply (proj2 (pop_contract newState "jobs")). left. reflexivity.
Defined.

(** ** Produce and consume *)

Lemma sendMessage_absent (st : State) (key msg : string) :
  pool st !! key = None -> sendMessage key msg st = Done false st.
Proof. intros H. unfold sendMessage, bind, gets. simpl. by rewrite H. Qed.

Lemma produce_no_waiter (st : State) (name msg : string) :
  pool st !! name = None ->
  produce name msg st =
    Done tt (set_data (fun d => <[name := index d name ++ [msg]]> d) st).
Proof.
  intros H. unfold produce.
  rewrite (bind_Done _ _ _ _ _ (sendMessage_absent st name msg H)).
  reflexivity.
Qed.

(** Producing a list of messages with no waiter registered appends them, in
    order, behind what the name already buffers. *)
Lemma produceAll_no_waiter (name : string) (msgs : list string) :
  forall st, pool st !! name = None ->
  exists st',
    produceAll name msgs st = Done tt st' /\
    index (data st') name = index (data st) name ++ msgs /\
    pool st' = pool st /\ chans st' = chans st.
Proof.
  induction msgs as [|m msgs IH]; intros st Hp.
  - exists st. by rewrite app_nil_r.
  - cbn [produceAll].
    rewrite (bind_Done _ _ _ _ _ (produce_no_waiter st name m Hp)).
    destruct (IH (set_data (fun d => <[name := index d name ++ [m]]> d) st) Hp)
      as (st' & Hrun & Hidx & Hpool & Hch).
    exists st'. split; [exact Hrun |]. split; [| by split].
    rewrite Hidx. unfold index at 1. simpl. rewrite lookup_insert_eq. simpl.
    by rewrite <- app_assoc.
Qed.

Lemma consume_found (st : State) (name v : string) (rest : list string)
  (timeout : Z) (hasTimeout : bool) :
  data st !! name = Some (v :: rest) ->
  consume name timeout hasTimeout st =
    Done (Replied (okResp v))
         (set_data (match rest with [] => delete name | _ => <[name := rest]> end) st).
Proof.
  intros H. unfold consume.
  rewrite (bind_Done _ _ _ _ _ (pop_cons st name v rest H)).
  by destruct hasTimeout.
Qed.

Lemma consume_empty_nowait (st : State) (name : string) (timeout : Z) :
  index (data st) name = [] ->
  consume name timeout false st = Done (Replied notFound) st.
Proof.
  intros H. unfold consume.
  by rewrite (bind_Done _ _ _ _ _ (pop_none st name H)).
Qed.

(** Draining: as many GETs without timeout as there are buffered messages
    return them from the head on, and leave nothing under the name. *)
Lemma consumeN_drains (name : string) (l : list string) :
  forall st, index (data st) name = l ->
  exists st',
    consumeN name (length l) st = Done (map (fun m => Replied (okResp m)) l) st' /\
    index (data st') name = [] /\
    pool st' = pool st /\ chans st' = chans st.
Proof.
  induction l as [|v rest IH]; intros st Hl.
  - exists st. by repeat split.
  - cbn [length consumeN map].
    apply index_cons in Hl.
    rewrite (bind_Done _ _ _ _ _ (consume_found st name v rest 0 false Hl)).
    destruct (IH (set_data (match rest with [] => delete name
                                         | _ => <[name := rest]> end) st))
      as (st' & Hrun & Hidx & Hpool & Hch).
    { apply index_after_pop. }
    exists st'. split; [| by repeat split].
    by rewrite (bind_Done _ _ _ _ _ Hrun).
Qed.

(** C1.  With no waiter registered and nothing buffered under a name, [n]
    produces followed by [n] GETs without timeout answer the produced
    messages in the order produced, each as found, and one more GET answers
    not found. *)
Theorem fifo_per_name (st : State) (name : string) (msgs : list string) :
  pool st !! name = None ->
  index (data st) name = [] ->
  exists st1 st2,
    produceAll name msgs st = Done tt st1 /\
    consumeN name (length msgs) st1 =
      Done (map (fun m => Replied (okResp m)) msgs) st2 /\
    consume name 0 false st2 = Done (Replied notFound) st2.
Proof.
  intros Hp Hd.
  destruct (produceAll_no_waiter name msgs st Hp) as (st1 & Hrun & Hidx & _).
  rewrite Hd in Hidx. simpl in Hidx.
  destruct (consumeN_drains name msgs st1 Hidx) as (st2 & Hget & Hnil & _).
  exists st1, st2. repeat split; [done | done |].
  by apply consume_empty_nowait.
Qed.

Lemma fifo_per_name_witness :
  exists st1 st2,
    produceAll "jobs" ["task1"; "task2"] newState = Done tt st1 /\
    consumeN "jobs" 2 st1 =
      Done [Replied (okResp "task1"); Replied (okResp "task2")] st2 /\
    consume "jobs" 0 false st2 = Done (Replied notFound) st2.
Proof.
  apply (fifo_per_name newState "jobs" ["task1"; "task2"]); reflexivity.
Defined.

(** C8.  A GET whose name has a buffered message answers it at once, found,
    whatever timeout was asked for: no channel is made, nothing is
    registered, and the handler is not parked. *)
Theorem buffered_message_first (st : State) (u : URL) (name v : string)
  (rest : list string) :
  getQueueName u = (name, true) ->
  data st !! name = Some (v :: rest) ->
  exists st',
    getQueueHandler u st = Done (Replied (okResp v)) st' /\
    (forall timeout hasTimeout,
       consume name timeout hasTimeout st = Done (Replied (okResp v)) st') /\
    index (data st') name = rest /\
    pool st' = pool st /\ chans st' = chans st.
Proof.
  intros Hn Hd. eexists. split; [| split; [| split; [| split]]].
  - unfold getQueueHandler. rewrite Hn. simpl.
    destruct (getRequestTimeout u) as [timeout hasTimeout].
    by apply consume_found.
  - intros timeout hasTimeout. by apply consume_found.
  - simpl. apply index_after_pop.
  - reflexivity.
  - reflexivity.
Qed.

Lemma buffered_message_first_witness :
  exists st',
    getQueueHandler (mkURL "/jobs" {["timeout" := ["30"]]})
      (mkState {["jobs" := ["task1"; "task2"]]} ∅ [])
    = Done (Replied (okResp "task1")) st' /\
    index (data st') "jobs" = ["task2"] /\ pool st' = ∅ /\ chans st' = [].
Proof.
  destruct (buffered_message_first
              (mkState {["jobs" := ["task1"; "task2"]]} ∅ [])
              (mkURL "/jobs" {["timeout" := ["30"]]}) "jobs" "task1" ["task2"])
    as (st' & H1 & _ & H2 & H3 & H4); [reflexivity | reflexivity |].
  exists st'. repeat split; assumption.
Defined.

(** ** Delivery to a waiting GET *)

Lemma send_Done_inv (c : chan) (msg : string) (st st' : State) :
  send c msg st = Done tt st' ->
  exists id,
    c = Chan id /\
    chans st !! id = Some (mkChan None false) /\
    st' = set_chans (<[id := mkChan (Some msg) false]>) st.
Proof.
  unfold send. destruct c as [|id]; [discriminate |].
  destruct (chans st !! id) as [[b cl]|] eqn:E; [| discriminate].
  simpl. destruct cl; [discriminate |]. destruct b; [discriminate |].
  intros [= <-]. by exists id.
Qed.

Lemma send_free (id : nat) (msg : string) (st : State) :
  chans st !! id = Some (mkChan None false) ->
  send (Chan id) msg st = Done tt (set_chans (<[id := mkChan (Some msg) false]>) st).
Proof. intros H. unfold send. by rewrite H. Qed.

Lemma send_full (id : nat) (msg m : string) (st : State) :
  chans st !! id = Some (mkChan (Some m) false) ->
  send (Chan id) msg st = Blocked (Chan id) st.
Proof. intros H. unfold send. by rewrite H. Qed.

(** [send] either completes or leaves the state as it was. *)
Lemma send_stuck_same (c : chan) (msg : string) (st : State) :
  match send c msg st with
  | Done _ _ => True
  | Panic _ st' | Blocked _ st' => st' = st
  end.
Proof.
  unfold send. destruct c as [|id]; [done |].
  destruct (chans st !! id) as [[b cl]|]; [| done].
  simpl. destruct cl; [done |]. by destruct b.
Qed.

Lemma sendMessage_head (st : State) (key msg : string) (c : chan) (rest : list chan) :
  pool st !! key = Some (c :: rest) ->
  sendMessage key msg st =
    match send c msg st with
    | Done _ st' => Done true st'
    | Panic e st' => Panic e st'
    | Blocked c' st' => Blocked c' st'
    end.
Proof.
  intros H. unfold sendMessage, bind, gets, lift, ret. simpl. rewrite H. simpl.
  by destruct (send c msg st).
Qed.

Lemma sendMessage_empty_slice (st : State) (key msg : string) :
  pool st !! key = Some [] ->
  sendMessage key msg st = Panic IndexOutOfRange st.
Proof. intros H. unfold sendMessage, bind, gets, lift. simpl. by rewrite H. Qed.

(** What a completed [sendMessage] did, read off its result. *)
Lemma sendMessage_Done_inv (st st' : State) (key msg : string) (b : bool) :
  sendMessage key msg st = Done b st' ->
  (b = false /\ pool st !! key = None /\ st' = st) \/
  (b = true /\
   exists id rest,
     pool st !! key = Some (Chan id :: rest) /\
     chans st !! id = Some (mkChan None false) /\
     st' = set_chans (<[id := mkChan (Some msg) false]>) st).
Proof.
  destruct (pool st !! key) as [[|c rest]|] eqn:E.
  - rewrite (sendMessage_empty_slice _ _ _ E). discriminate.
  - rewrite (sendMessage_head _ _ _ _ _ E).
    destruct (send c msg st) as [[] st1| |] eqn:Es; try discriminate.
    intros [= <- <-]. right. split; [done |].
    destruct (send_Done_inv _ _ _ _ Es) as (id & -> & Hc & ->).
    by exists id, rest.
  - rewrite (sendMessage_absent _ _ _ E). intros [= <- <-]. by left.
Qed.

(** When [sendMessage] does not complete, the state is as it was. *)
Lemma sendMessage_stuck_same (st : State) (key msg : string) :
  match sendMessage key msg st with
  | Done _ _ => True
  | Panic _ st' | Blocked _ st' => st' = st
  end.
Proof.
  destruct (pool st !! key) as [[|c rest]|] eqn:E.
  - by rewrite (sendMessage_empty_slice _ _ _ E).
  - rewrite (sendMessage_head _ _ _ _ _ E).
    pose proof (send_stuck_same c msg st) as H.
    by destruct (send c msg st).
  - by rewrite (sendMessage_absent _ _ _ E).
Qed.

Lemma lookup_written (st : State) (id : nat) (cs cs' : chanState) :
  chans st !! id = Some cs ->
  chans (set_chans (<[id := cs']>) st) !! id = Some cs'.
Proof.
  intros H. simpl. apply list_lookup_insert_eq. by eapply lookup_lt_Some.
Qed.

(** C5.  A PUT first offers the message to the registry.  If a waiting GET
    took it, the store is left as it was; only if none took it is the
    message appended to the store, and then no channel was written.  When
    the offer panics or stays parked, nothing is stored either. *)
Theorem handoff_or_buffer (st : State) (u : URL) (name msg : string) :
  getQueueName u = (name, true) ->
  getQueueMessage u = (msg, true) ->
  match sendMessage name msg st with
  | Done true st' =>
      putQueueHandler u st = Done (okResp "") st' /\
      data st' = data st /\
      exists id rest,
        pool st !! name = Some (Chan id :: rest) /\
        chans st' !! id = Some (mkChan (Some msg) false)
  | Done false st' =>
      st' = st /\
      pool st !! name = None /\
      putQueueHandler u st =
        Done (okResp "")
             (set_data (fun d => <[name := index d name ++ [msg]]> d) st)
  | Panic e st' => putQueueHandler u st = Panic e st' /\ st' = st
  | Blocked c st' => putQueueHandler u st = Blocked c st' /\ st' = st
  end.
Proof.
  intros Hn Hm.
  unfold putQueueHandler. rewrite Hn, Hm. simpl.
  unfold produce, bind.
  pose proof (sendMessage_stuck_same st name msg) as Hstuck.
  destruct (sendMessage name msg st) as [b st'|e st'|c st'] eqn:E.
  - destruct (sendMessage_Done_inv _ _ _ _ _ E)
      as [(-> & Hp & ->) | (-> & id & rest & Hp & Hc & ->)].
    + repeat split; done.
    + simpl. repeat split. exists id, rest. split; [done |].
      by eapply (lookup_written st).
  - by split.
  - by split.
Qed.

Lemma handoff_or_buffer_witness :
  (putQueueHandler (mkURL "/jobs" {["v" := ["task1"]]}) newState =
     Done (okResp "")
          (set_data (fun d => <["jobs" := index d "jobs" ++ ["task1"]]> d) newState)) /\
  (exists st',
     putQueueHandler (mkURL "/jobs" {["v" := ["task1"]]})
       (mkState ∅ {["jobs" := [Chan 0]]} [mkChan None false]) = Done (okResp "") st' /\
     data st' = ∅).
Proof.
  split.
  - pose proof (handoff_or_buffer newState (mkURL "/jobs" {["v" := ["task1"]]})
                  "jobs" "task1" eq_refl eq_refl) as H.
    simpl in H. apply H.
  - pose proof (handoff_or_buffer
                  (mkState ∅ {["jobs" := [Chan 0]]} [mkChan None false])
                  (mkURL "/jobs" {["v" := ["task1"]]})
                  "jobs" "task1" eq_refl eq_refl) as H.
    destruct (sendMessage "jobs" "task1"
                (mkState ∅ {["jobs" := [Chan 0]]} [mkChan None false]))
      as [[] st'| |] eqn:E; try discriminate E.
    exists st'. destruct H as (H1 & H2 & _). split; assumption.
Defined.


Lemma deliveredState_reached :
  exists ch timeout st1,
    getQueueHandler (mkURL "/jobs" {["timeout" := ["5"]]}) newState
      = Done (Selecting "jobs" ch timeout) st1 /\
    putQueueHandler (mkURL "/jobs" {["v" := ["m1"]]}) st1
      = Done (okResp "") deliveredState.
Proof. eexists _, _, _. split; reflexivity. Qed.

(** C6, as stated, fails: in [deliveredState] a handle is registered for the
    name, yet [sendMessage] does not report true; it stays parked on the head
    handle, whose slot is still occupied. *)
Lemma sendMessage_iff_registered_counterexample :
  ~ (forall st name msg,
       (exists h rest, pool st !! name = Some (h :: rest)) <->
       (exists st', sendMessage name msg st = Done true st')).
Proof.
  intros H.
  destruct (proj1 (H deliveredState "jobs" "m2")) as [st' Hst'].
  - exists (Chan 0), []. reflexivity.
  - discriminate Hst'.
Qed.

(** C6, amended.  [sendMessage] reports false and changes nothing exactly
    when the name has no entry.  When the name's sequence has a head handle
    whose slot is free, the message is written into that head handle, nothing
    else changes, and true is reported; every report of true is of that
    kind.  When the head handle's slot is still occupied, [sendMessage] does
    not return: it stays parked on the head handle and changes nothing. *)
Theorem deliver_to_head (st : State) (name msg : string) :
  (pool st !! name = None -> sendMessage name msg st = Done false st) /\
  (forall st', sendMessage name msg st = Done false st' ->
     pool st !! name = None /\ st' = st) /\
  (forall id rest,
     pool st !! name = Some (Chan id :: rest) ->
     chans st !! id = Some (mkChan None false) ->
     sendMessage name msg st =
       Done true (set_chans (<[id := mkChan (Some msg) false]>) st)) /\
  (forall st', sendMessage name msg st = Done true st' ->
     exists id rest,
       pool st !! name = Some (Chan id :: rest) /\
       chans st !! id = Some (mkChan None false) /\
       st' = set_chans (<[id := mkChan (Some msg) false]>) st) /\
  (forall id rest m,
     pool st !! name = Some (Chan id :: rest) ->
     chans st !! id = Some (mkChan (Some m) false) ->
     sendMessage name msg st = Blocked (Chan id) st).
Proof.
  split; [apply sendMessage_absent |]. split; [| split; [| split]].
  - intros st' H.
    destruct (sendMessage_Done_inv _ _ _ _ _ H) as [(_ & Hp & ->) | (? & _)];
      [done | discriminate].
  - intros id rest Hp Hc.
    rewrite (sendMessage_head _ _ _ _ _ Hp). by rewrite (send_free _ _ _ Hc).
  - intros st' H.
    destruct (sendMessage_Done_inv _ _ _ _ _ H) as [(? & _) | (_ & Hex)];
      [discriminate | exact Hex].
  - intros id rest m Hp Hc.
    rewrite (sendMessage_head _ _ _ _ _ Hp). by rewrite (send_full _ _ _ _ Hc).
Qed.

Lemma deliver_to_head_witness :
  sendMessage "jobs" "m1" newState = Done false newState /\
  sendMessage "jobs" "m1"
    (mkState ∅ {["jobs" := [Chan 0; Chan 1]]} [mkChan None false; mkChan None false])
  = Done true
      (mkState ∅ {["jobs" := [Chan 0; Chan 1]]}
         [mkChan (Some "m1") false; mkChan None false]) /\
  sendMessage "jobs" "m2" deliveredState = Blocked (Chan 0) deliveredState.
Proof.
  split; [| split].
  - apply (proj1 (deliver_to_head newState "jobs" "m1")). reflexivity.
  - assert (Hp : pool (mkState ∅ {["jobs" := [Chan 0; Chan 1]]}
                         [mkChan None false; mkChan None false]) !! "jobs"
                 = Some [Chan 0; Chan 1]) by reflexivity.
    assert (Hc : chans (mkState ∅ {["jobs" := [Chan 0; Chan 1]]}
                          [mkChan None false; mkChan None false]) !! 0%nat
                 = Some (mkChan None false)) by reflexivity.
    exact (proj1 (proj2 (proj2 (deliver_to_head _ "jobs" "m1"))) 0%nat [Chan 1] Hp Hc).
  - apply (proj2 (proj2 (proj2 (proj2
      (deliver_to_head deliveredState "jobs" "m2")))) 0%nat [] "m1"); reflexivity.
Defined.

(** ** Deregistration: [removeItem] and [removeFromQueue] *)



Lemma withoutFirst_not_in (item : chan) (s : list chan) :
  item ∉ s -> withoutFirst item s = s.
Proof.
  induction s as [|v s IH]; [done |].
  intros Hn. simpl. apply not_elem_of_cons in Hn as [Hne Hn].
  destruct (decide (v = item)); [congruence |]. by rewrite IH.
Qed.

(** The loop, started at position [length pre] with [pre] already visited
    and free of [item]. *)
Lemma removeItem_range_spec (s new : list chan) (item : chan) :
  length new = (length s - 1)%nat ->
  forall rest pre,
    s = pre ++ rest ->
    removeItem_range s new item (length pre) rest =
      if decide (item ∈ rest) then pre ++ withoutFirst item rest else s.
Proof.
  intros Hnew. induction rest as [|v rest IH]; intros pre Hs.
  - simpl. destruct (decide (item ∈ [])) as [H|H]; [| done].
    by apply elem_of_nil in H.
  - cbn [removeItem_range withoutFirst].
    destruct (decide (v = item)) as [->|Hne].
    + rewrite decide_True by apply list_elem_of_here.
      destruct (Z.eqb_spec (Slice.len s) 1) as [H1|H1].
      * unfold Slice.len in H1. subst s. rewrite length_app in H1. simpl in H1.
        destruct pre; [| simpl in H1; lia].
        destruct rest; [done | simpl in H1; lia].
      * subst s. rewrite take_app_length.
        replace (S (length pre)) with (length (pre ++ [item]))
          by (rewrite length_app; simpl; lia).
        rewrite (cons_middle item pre rest), app_assoc, drop_app_length.
        apply copy_same_length.
        rewrite Hnew, !length_app. simpl. lia.
    + replace (S (length pre)) with (length (pre ++ [v]))
        by (rewrite length_app; simpl; lia).
      rewrite IH by (by rewrite <- app_assoc).
      destruct (decide (item ∈ rest)) as [Hin|Hin].
      * rewrite decide_True by (by apply list_elem_of_further).
        by rewrite <- app_assoc.
      * rewrite decide_False; [done |].
        intros [?|?]%elem_of_cons; [congruence | done].
Qed.

(** [removeItem] panics on an empty slice; on a non-empty one it returns the
    slice without the first occurrence of the item, or the slice itself when
    the item does not occur. *)
Lemma removeItem_nil (item : chan) :
  removeItem [] item = Panics MakesliceLenOutOfRange.
Proof. reflexivity. Qed.

Lemma removeItem_cons (v : chan) (s : list chan) (item : chan) :
  removeItem (v :: s) item = Ok (withoutFirst item (v :: s)).
Proof.
  unfold removeItem.
  replace (Slice.len (v :: s) - 1) with (Z.of_nat (length s))
    by (unfold Slice.len; simpl; lia).
  rewrite make_nonneg. f_equal.
  rewrite (removeItem_range_spec (v :: s) _ item) with (pre := []).
  - destruct (decide (item ∈ v :: s)) as [H|H]; [done |].
    by rewrite withoutFirst_not_in.
  - rewrite length_replicate. simpl. lia.
  - done.
Qed.

Lemma removeFromQueue_no_entry (st : State) (name : string) (ch : chan) :
  index (pool st) name = [] ->
  removeFromQueue name ch st = Panic MakesliceLenOutOfRange st.
Proof.
  intros H. unfold removeFromQueue, bind, gets, lift. by rewrite H.
Qed.

Lemma removeFromQueue_entry (st : State) (name : string) (ch v : chan)
  (s : list chan) :
  pool st !! name = Some (v :: s) ->
  removeFromQueue name ch st =
    Done tt (set_pool (match withoutFirst ch (v :: s) with
                       | [] => delete name
                       | new => <[name := new]>
                       end) st).
Proof.
  intros H. unfold removeFromQueue, bind, gets, lift.
  rewrite (index_Some _ _ _ H), removeItem_cons.
  destruct (withoutFirst ch (v :: s)) as [|w new] eqn:E; [done |].
  by rewrite len_cons_nonzero.
Qed.

(** Where the name has an entry that does not hold the handle, deregistering
    it leaves the registry as it was. *)
Lemma removeFromQueue_not_member (st : State) (name : string) (ch v : chan)
  (s : list chan) :
  pool st !! name = Some (v :: s) ->
  ch ∉ v :: s ->
  exists st',
    removeFromQueue name ch st = Done tt st' /\
    pool st' = pool st /\ data st' = data st /\ chans st' = chans st.
Proof.
  intros Hp Hn. eexists. split; [by eapply removeFromQueue_entry |].
  rewrite withoutFirst_not_in by done. simpl. repeat split.
  by apply insert_id.
Qed.

(** C3.  On a name that has no entry in the registry, [removeFromQueue] does
    not return: [removeItem] asks [make] for a slice of length -1 and the
    goroutine panics.  The registry is left as it was. *)
Theorem removeFromQueue_absent_panics (st : State) (name : string) (ch : chan) :
  pool st !! name = None ->
  removeFromQueue name ch st = Panic MakesliceLenOutOfRange st.
Proof.
  intros H. apply removeFromQueue_no_entry. by apply index_None.
Qed.

Lemma removeFromQueue_absent_panics_witness :
  removeFromQueue "jobs" (Chan 0) newState = Panic MakesliceLenOutOfRange newState.
Proof.
  apply (removeFromQueue_absent_panics newState "jobs" (Chan 0)). reflexivity.
Defined.

(** Deregistering the only handle of a name twice: the first call removes
    the key, the second one panics. *)
Example removeFromQueue_twice :
  exists st1,
    removeFromQueue "jobs" (Chan 0) (mkState ∅ {["jobs" := [Chan 0]]} [mkChan None false])
      = Done tt st1 /\
    pool st1 !! "jobs" = None /\
    removeFromQueue "jobs" (Chan 0) st1 = Panic MakesliceLenOutOfRange st1.
Proof. eexists. repeat split. Qed.

(** ** The cleanup invariant *)

Section Cleanup.
Context {V : Type}.
Implicit Types m : gmap string (list V).

Lemma noEmptyKey_empty : noEmptyKey (∅ : gmap string (list V)).
Proof. intros k l H. by rewrite lookup_empty in H. Qed.

Lemma noEmptyKey_insert m k l :
  l <> [] -> noEmptyKey m -> noEmptyKey (<[k := l]> m).
Proof.
  intros Hl Hm k' l' H. destruct (decide (k = k')) as [->|Hne].
  - rewrite lookup_insert_eq in H. congruence.
  - rewrite lookup_insert_ne in H by done. by eapply Hm.
Qed.

Lemma noEmptyKey_delete m k : noEmptyKey m -> noEmptyKey (delete k m).
Proof.
  intros Hm k' l' H. destruct (decide (k = k')) as [->|Hne].
  - by rewrite lookup_delete_eq in H.
  - rewrite lookup_delete_ne in H by done. by eapply Hm.
Qed.

Lemma len_nonzero (l : list V) : (Slice.len l =? 0)%Z = false -> l <> [].
Proof. intros H ->. discriminate H. Qed.
End Cleanup.

Create HintDb cleanup.
#[local] Hint Resolve noEmptyKey_insert noEmptyKey_delete len_nonzero : cleanup.

Lemma cleanupInv_newState : cleanupInv newState.
Proof. split; apply noEmptyKey_empty. Qed.

Lemma push_cleanup (st : State) (key msg : string) :
  cleanupInv st -> cleanupInv (final (push key msg st)).
Proof.
  intros [Hd Hp]. split; [| exact Hp]. simpl.
  apply noEmptyKey_insert; [| exact Hd]. by destruct (index (data st) key).
Qed.

Lemma pop_cleanup (st : State) (key : string) :
  cleanupInv st -> cleanupInv (final (pop key st)).
Proof.
  intros [Hd Hp]. unfold pop.
  destruct (data st !! key) as [values|]; [| by split].
  destruct (Slice.len values =? 0)%Z; [by split |].
  destruct (popSlice values) as [v newValues].
  destruct (Slice.len newValues =? 0)%Z eqn:E; split; simpl;
    eauto with cleanup.
Qed.

Lemma addToQueue_cleanup (st : State) (name : string) (ch : chan) :
  cleanupInv st -> cleanupInv (final (addToQueue name ch st)).
Proof.
  intros [Hd Hp]. split; [exact Hd |]. simpl.
  apply noEmptyKey_insert; [| exact Hp]. by destruct (index (pool st) name).
Qed.

Lemma removeFromQueue_cleanup (st : State) (name : string) (ch : chan) :
  cleanupInv st -> cleanupInv (final (removeFromQueue name ch st)).
Proof.
  intros [Hd Hp]. unfold removeFromQueue, bind, gets, lift.
  destruct (removeItem (index (pool st) name) ch) as [new|e]; [| by split].
  destruct (Slice.len new =? 0)%Z eqn:E; split; simpl; eauto with cleanup.
Qed.

(** [sendMessage] changes neither map. *)
Lemma sendMessage_maps (st : State) (key msg : string) :
  data (final (sendMessage key msg st)) = data st /\
  pool (final (sendMessage key msg st)) = pool st.
Proof.
  pose proof (sendMessage_stuck_same st key msg) as Hs.
  destruct (sendMessage key msg st) as [b st'|e st'|c st'] eqn:E; simpl;
    [| by subst | by subst].
  destruct (sendMessage_Done_inv _ _ _ _ _ E)
    as [(_ & _ & ->) | (_ & id & rest & _ & _ & ->)]; done.
Qed.

Lemma sendMessage_cleanup (st : State) (key msg : string) :
  cleanupInv st -> cleanupInv (final (sendMessage key msg st)).
Proof.
  intros [Hd Hp]. destruct (sendMessage_maps st key msg) as [Ed Ep].
  split; [by rewrite Ed | by rewrite Ep].
Qed.

(** The channel operations change neither map. *)
Lemma chan_ops_maps (st : State) (o : op) :
  match o with MakeChan | Recv _ | Close _ => True | _ => False end ->
  data (step o st) = data st /\ pool (step o st) = pool st.
Proof.
  destruct o as [| | | | | |c|c]; try done; intros _; simpl.
  - unfold recv. destruct c as [|id]; [done |].
    destruct (chans st !! id) as [[[m|] cl]|]; simpl; [done | | done].
    by destruct cl.
  - unfold close. destruct c as [|id]; [done |].
    destruct (chans st !! id) as [[b cl]|]; simpl; [| done].
    by destruct cl.
Qed.

Lemma step_cleanup (o : op) (st : State) :
  cleanupInv st -> cleanupInv (step o st).
Proof.
  intros H.
  destruct o; simpl;
    [ by apply push_cleanup | by apply pop_cleanup | by apply addToQueue_cleanup
    | by apply removeFromQueue_cleanup | by apply sendMessage_cleanup | | | ].
  - exact H.
  - destruct (chan_ops_maps st (Recv ch) I) as [Ed Ep]. simpl in Ed, Ep.
    destruct H. split; [by rewrite Ed | by rewrite Ep].
  - destruct (chan_ops_maps st (Close ch) I) as [Ed Ep]. simpl in Ed, Ep.
    destruct H. split; [by rewrite Ed | by rewrite Ep].
Qed.

Lemma exec_cleanup (ops : list op) :
  forall st, cleanupInv st -> cleanupInv (exec ops st).
Proof.
  induction ops as [|o ops IH]; intros st H; [exact H |].
  simpl. apply IH. by apply step_cleanup.
Qed.

(** C7.  In the store and in the registry a name is a key only while its
    sequence is non-empty: this holds at start, each of [push], [pop],
    [addToQueue], [removeFromQueue] and [sendMessage] keeps it (whether the
    call returns, panics or stays parked), and so it holds in every state
    reached from the start by these operations. *)
Theorem cleanup_invariant :
  cleanupInv newState /\
  (forall st, cleanupInv st ->
     (forall key msg, cleanupInv (final (push key msg st))) /\
     (forall key, cleanupInv (final (pop key st))) /\
     (forall name ch, cleanupInv (final (addToQueue name ch st))) /\
     (forall name ch, cleanupInv (final (removeFromQueue name ch st))) /\
     (forall key msg, cleanupInv (final (sendMessage key msg st)))) /\
  (forall ops, cleanupInv (exec ops newState)).
Proof.
  split; [apply cleanupInv_newState |]. split.
  - intros st H. repeat split;
      intros; first [ by apply push_cleanup | by apply pop_cleanup
                    | by apply addToQueue_cleanup
                    | by apply removeFromQueue_cleanup
                    | by apply sendMessage_cleanup ].
  - intros ops. apply exec_cleanup, cleanupInv_newState.
Qed.

Lemma cleanup_invariant_witness :
  cleanupInv (final (push "jobs" "task1" newState)) /\
  cleanupInv (final (pop "jobs" newState)) /\
  cleanupInv (final (removeFromQueue "jobs" (Chan 0) newState)).
Proof.
  destruct (proj1 (proj2 cleanup_invariant) newState (proj1 cleanup_invariant))
    as (Hpush & Hpop & _ & Hrem & _).
  split; [apply Hpush | split; [apply Hpop | apply Hrem]].
Defined.

(** ** Writes to a handle *)

(** C2, as stated, fails.  A GET with a timeout registers channel 0; a first
    PUT is delivered into it; the GET takes the message out of the channel
    and, before it reaches [removeFromQueue], a second PUT on the same name
    finds the same handle at the head and is delivered into it again.  The GET
    then deregisters and closes the channel: the second message is neither
    answered nor stored. *)
Lemma double_delivery_counterexample :
  exists st1 st2 st3 st4 st5,
    getQueueHandler (mkURL "/jobs" {["timeout" := ["5"]]}) newState
      = Done (Selecting "jobs" (Chan 0) 5000000000) st1 /\
    putQueueHandler (mkURL "/jobs" {["v" := ["m1"]]}) st1 = Done (okResp "") st2 /\
    chans st2 !! 0%nat = Some (mkChan (Some "m1") false) /\
    resume (Selecting "jobs" (Chan 0) 5000000000) false st2
      = Done (Received "jobs" (Chan 0) "m1") st3 /\
    pool st3 !! "jobs" = Some [Chan 0] /\
    putQueueHandler (mkURL "/jobs" {["v" := ["m2"]]}) st3 = Done (okResp "") st4 /\
    chans st4 !! 0%nat = Some (mkChan (Some "m2") false) /\
    data st4 !! "jobs" = None /\
    resume (Received "jobs" (Chan 0) "m1") false st4
      = Done (Replied (okResp "m1")) st5 /\
    pool st5 !! "jobs" = None /\
    data st5 !! "jobs" = None /\
    chans st5 !! 0%nat = Some (mkChan (Some "m2") true).
Proof. eexists _, _, _, _, _. repeat split. Qed.

(** While the slot is still occupied, the second PUT is not delivered
    elsewhere either: it stays parked on the same handle, inside
    [sendMessage]. *)
Example second_put_parks :
  putQueueHandler (mkURL "/jobs" {["v" := ["m2"]]}) deliveredState
    = Blocked (Chan 0) deliveredState.
Proof. reflexivity. Qed.


Lemma withoutFirst_subset (item x : chan) (s : list chan) :
  x ∈ withoutFirst item s -> x ∈ s.
Proof.
  induction s as [|v s IH]; [done |]. simpl.
  destruct (decide (v = item)).
  - apply list_elem_of_further.
  - intros [->|H]%elem_of_cons; [apply list_elem_of_here |].
    apply list_elem_of_further. by apply IH.
Qed.

Lemma withoutFirst_NoDup (item : chan) (s : list chan) :
  NoDup s -> item ∉ withoutFirst item s.
Proof.
  induction 1 as [|v s Hv Hs IH]; simpl; [apply not_elem_of_nil |].
  destruct (decide (v = item)) as [->|Hne]; [done |].
  intros [?|?]%elem_of_cons; [congruence | done].
Qed.

Lemma removeFromQueue_pool_subset (st : State) (name : string) (ch : chan) :
  forall k l x,
    pool (final (removeFromQueue name ch st)) !! k = Some l -> x ∈ l ->
    exists l0, pool st !! k = Some l0 /\ x ∈ l0.
Proof.
  intros k l x.
  destruct (pool st !! name) as [[|v s]|] eqn:E.
  - rewrite removeFromQueue_no_entry by (by rewrite (index_Some _ _ _ E)). eauto.
  - rewrite (removeFromQueue_entry _ _ _ _ _ E).
    pose proof (withoutFirst_subset ch x (v :: s)) as Hsub.
    destruct (withoutFirst ch (v :: s)) as [|w new]; cbn [final pool set_pool];
      (destruct (decide (name = k)) as [<-|Hne];
       [| rewrite ?lookup_delete_ne, ?lookup_insert_ne by done; eauto]).
    + by rewrite lookup_delete_eq.
    + rewrite lookup_insert_eq. intros [= <-] Hx. exists (v :: s).
      split; [done | by apply Hsub].
  - rewrite removeFromQueue_no_entry by (by apply index_None). eauto.
Qed.

Lemma removeFromQueue_chans (st : State) (name : string) (ch : chan) :
  chans (final (removeFromQueue name ch st)) = chans st /\
  data (final (removeFromQueue name ch st)) = data st.
Proof.
  unfold removeFromQueue, bind, gets, lift.
  destruct (removeItem (index (pool st) name) ch) as [new|e]; [| done].
  by destruct (Slice.len new =? 0)%Z.
Qed.

Lemma pop_pool_chans (st : State) (key : string) :
  pool (final (pop key st)) = pool st /\ chans (final (pop key st)) = chans st.
Proof.
  unfold pop. destruct (data st !! key) as [values|]; [| done].
  destruct (Slice.len values =? 0)%Z; [done |].
  destruct (popSlice values) as [v newValues].
  by destruct (Slice.len newValues =? 0)%Z.
Qed.

(** [sendMessage] writes to no channel other than the head handle of the
    name: a handle that is not registered keeps its state. *)
Lemma sendMessage_other_chan (st : State) (key msg : string) (id : nat) :
  unregistered (Chan id) st ->
  chans (final (sendMessage key msg st)) !! id = chans st !! id.
Proof.
  intros Hu. pose proof (sendMessage_stuck_same st key msg) as Hs.
  destruct (sendMessage key msg st) as [b st'|e st'|c st'] eqn:E; simpl;
    [| by subst | by subst].
  destruct (sendMessage_Done_inv _ _ _ _ _ E)
    as [(_ & _ & ->) | (_ & id' & rest & Hp & _ & ->)]; [done |].
  simpl. apply list_lookup_insert_ne. intros <-.
  apply (Hu _ _ Hp). apply list_elem_of_here.
Qed.

Lemma recv_other_chan (st : State) (c : chan) (id : nat) :
  c <> Chan id -> chans (final (recv c st)) !! id = chans st !! id.
Proof.
  intros Hne. unfold recv. destruct c as [|id']; [done |].
  destruct (chans st !! id') as [[[m|] cl]|]; simpl; [| by destruct cl | done].
  apply list_lookup_insert_ne. congruence.
Qed.

Lemma close_other_chan (st : State) (c : chan) (id : nat) :
  c <> Chan id -> chans (final (close c st)) !! id = chans st !! id.
Proof.
  intros Hne. unfold close. destruct c as [|id']; [done |].
  destruct (chans st !! id') as [[b cl]|]; simpl; [| done].
  destruct cl; simpl; [done |].
  apply list_lookup_insert_ne. congruence.
Qed.

(** One foreign operation keeps an unregistered handle unregistered and its
    channel untouched. *)
Lemma step_foreign (o : op) (st : State) (id : nat) :
  is_Some (chans st !! id) ->
  unregistered (Chan id) st ->
  foreign (Chan id) o ->
  unregistered (Chan id) (step o st) /\
  chans (step o st) !! id = chans st !! id.
Proof.
  intros Hsome Hu Hf. destruct o as [key msg|key|name ch|name ch|key msg| |ch|ch];
    simpl in *.
  - done.
  - destruct (pop_pool_chans st key) as [Ep Ec]. rewrite Ec. split; [| done].
    intros k l. rewrite Ep. apply Hu.
  - split; [| done]. intros k l. simpl. destruct (decide (name = k)) as [<-|Hne].
    + rewrite lookup_insert_eq. intros [= <-].
      intros [Hin|Hin%list_elem_of_singleton]%elem_of_app; [| congruence].
      unfold index in Hin. destruct (pool st !! name) as [l0|] eqn:E; simpl in Hin.
      * by apply (Hu _ _ E).
      * by apply elem_of_nil in Hin.
    + rewrite lookup_insert_ne by done. apply Hu.
  - destruct (removeFromQueue_chans st name ch) as [Ec _]. rewrite Ec.
    split; [| done]. intros k l Hl Hin.
    destruct (removeFromQueue_pool_subset st name ch k l _ Hl Hin) as (l0 & H0 & Hin0).
    by apply (Hu _ _ H0).
  - split; [| by apply sendMessage_other_chan].
    intros k l. destruct (sendMessage_maps st key msg) as [_ Ep]. rewrite Ep.
    apply Hu.
  - split; [done |]. apply lookup_app_l. by apply lookup_lt_is_Some.
  - split; [| by apply recv_other_chan].
    destruct (chan_ops_maps st (Recv ch) I) as [_ Ep]. simpl in Ep.
    intros k l. rewrite Ep. apply Hu.
  - split; [| by apply close_other_chan].
    destruct (chan_ops_maps st (Close ch) I) as [_ Ep]. simpl in Ep.
    intros k l. rewrite Ep. apply Hu.
Qed.

Lemma exec_foreign (id : nat) (ops : list op) :
  forall st,
    is_Some (chans st !! id) ->
    unregistered (Chan id) st ->
    Forall (foreign (Chan id)) ops ->
    unregistered (Chan id) (exec ops st) /\
    chans (exec ops st) !! id = chans st !! id.
Proof.
  induction ops as [|o ops IH]; intros st Hsome Hu Hf; [done |].
  apply Forall_cons in Hf as [Ho Hf]. simpl.
  destruct (step_foreign o st id Hsome Hu Ho) as [Hu' Hc'].
  destruct (IH (step o st)) as [Hu'' Hc'']; [by rewrite Hc' | done | done |].
  split; [done | by rewrite Hc''].
Qed.

(** C2, amended.  Delivery leaves the registry as it is, so a delivered
    handle stays the target of later produces until its owner deregisters
    it.  Once [removeFromQueue] has removed a handle that was registered
    once, the handle is in no sequence, and no later operation of any other
    request (in particular no [sendMessage]) writes to its channel. *)
Theorem no_write_after_deregistration (st : State) (name : string) (id : nat)
  (ops : list op) :
  is_Some (chans st !! id) ->
  Chan id ∈ index (pool st) name ->
  NoDup (index (pool st) name) ->
  (forall k, k <> name -> Chan id ∉ index (pool st) k) ->
  Forall (foreign (Chan id)) ops ->
  (forall key msg, pool (final (sendMessage key msg st)) = pool st) /\
  exists st1,
    removeFromQueue name (Chan id) st = Done tt st1 /\
    unregistered (Chan id) (exec ops st1) /\
    chans (exec ops st1) !! id = chans st !! id.
Proof.
  intros Hsome Hin Hnd Hother Hops.
  split; [intros key msg; apply sendMessage_maps |].
  destruct (pool st !! name) as [[|v s]|] eqn:E;
    [ rewrite (index_Some _ _ _ E) in Hin; by apply elem_of_nil in Hin
    | | rewrite (index_None _ _ E) in Hin; by apply elem_of_nil in Hin ].
  rewrite (index_Some _ _ _ E) in Hnd.
  eexists. split; [by eapply removeFromQueue_entry |].
  pose proof (withoutFirst_NoDup (Chan id) (v :: s) Hnd) as Hgone.
  match goal with |- context [exec ops ?s1] => set (st1 := s1) end.
  assert (Hu : unregistered (Chan id) st1).
  { intros k l. subst st1. cbn [pool set_pool].
    destruct (decide (name = k)) as [<-|Hne].
    - destruct (withoutFirst (Chan id) (v :: s)) as [|w new].
      + by rewrite lookup_delete_eq.
      + rewrite lookup_insert_eq. by intros [= <-].
    - intros Hl.
      assert (Hk : pool st !! k = Some l).
      { destruct (withoutFirst (Chan id) (v :: s));
          by rewrite ?lookup_delete_ne, ?lookup_insert_ne in Hl. }
      specialize (Hother k (not_eq_sym Hne)).
      by rewrite (index_Some _ _ _ Hk) in Hother. }
  assert (Hc : chans st1 = chans st) by reflexivity.
  destruct (exec_foreign id ops st1) as [Hu' Hc']; [by rewrite Hc | done | done |].
  split; [done | by rewrite Hc', Hc].
Qed.

Lemma no_write_after_deregistration_witness :
  exists st1,
    removeFromQueue "jobs" (Chan 0)
      (mkState ∅ {["jobs" := [Chan 0; Chan 1]]}
         [mkChan (Some "m1") false; mkChan None false]) = Done tt st1 /\
    chans (exec [SendMessage "jobs" "m2"; Push "jobs" "m3"; SendMessage "jobs" "m4"] st1)
      !! 0%nat = Some (mkChan (Some "m1") false).
Proof.
  destruct (no_write_after_deregistration
              (mkState ∅ {["jobs" := [Chan 0; Chan 1]]}
                 [mkChan (Some "m1") false; mkChan None false])
              "jobs" 0
              [SendMessage "jobs" "m2"; Push "jobs" "m3"; SendMessage "jobs" "m4"])
    as (_ & st1 & Hrm & _ & Hch).
  - by eexists.
  - apply list_elem_of_here.
  - apply NoDup_cons. split.
    + intros H%list_elem_of_singleton. discriminate H.
    + apply NoDup_singleton.
  - intros k Hk. unfold index. simpl. rewrite lookup_singleton_ne by done.
    apply not_elem_of_nil.
  - repeat constructor.
  - exists st1. split; [exact Hrm | exact Hch].
Defined.

(** ** The queue name *)

Lemma cut_Some (sep : ascii) (s a b : string) :
  cut sep s = Some (a, b) -> s = (a +:+ String sep b)%string.
Proof.
  revert a. induction s as [|c s IH]; intros a; [discriminate |].
  simpl. destruct (Ascii.eqb_spec c sep) as [->|Hne].
  - by intros [= <- <-].
  - destruct (cut sep s) as [[a' b']|]; [| discriminate].
    intros [= <- <-].
    change (String c s = String c (a' +:+ String sep b')%string).
    f_equal. by apply IH.
Qed.

Lemma cut_Some_prefix (sep : ascii) (s a b : string) :
  cut sep s = Some (a, b) -> cut sep a = None.
Proof.
  revert a. induction s as [|c s IH]; intros a; [discriminate |].
  simpl. destruct (Ascii.eqb_spec c sep) as [->|Hne].
  - by intros [= <- <-].
  - destruct (cut sep s) as [[a' b']|]; [| discriminate].
    intros [= <- <-]. simpl.
    destruct (Ascii.eqb_spec c sep); [done |]. by rewrite (IH a').
Qed.

(** [getQueueName] accepts a path exactly when it holds one ["/"], and the
    name is the text after it. *)
Lemma getQueueName_cut (u : URL) :
  getQueueName u =
    match cut "/"%char (Path u) with
    | None => ("", false)
    | Some (_, b) =>
        match cut "/"%char b with
        | None => (b, true)
        | Some _ => ("", false)
        end
    end.
Proof.
  unfold getQueueName, SplitN, splitLoop.
  destruct (cut "/"%char (Path u)) as [[a b]|]; [| reflexivity].
  destruct (cut "/"%char b) as [[c d]|]; reflexivity.
Qed.

Lemma getQueueName_rejected (st : State) (u : URL) :
  snd (getQueueName u) = false ->
  putQueueHandler u st = Done badRequest st /\
  getQueueHandler u st = Done (Replied badRequest) st.
Proof.
  unfold putQueueHandler, getQueueHandler.
  destruct (getQueueName u) as [name ok]. simpl. by intros ->.
Qed.

(** C9.  The path ["/"], which carries no queue name, is not rejected:
    [getQueueName] reports the name [""] as present, a PUT on it buffers its
    message under [""], and a GET on it takes that message back. *)
Theorem empty_name_accepted (q : gmap string (list string)) :
  getQueueName (mkURL "/" q) = ("", true) /\
  putQueueHandler (mkURL "/" {["v" := ["x"]]}) newState
    = Done (okResp "") (mkState {["" := ["x"]]} ∅ []) /\
  getQueueHandler (mkURL "/" ∅) (mkState {["" := ["x"]]} ∅ [])
    = Done (Replied (okResp "x")) newState.
Proof. repeat split. Qed.

(** ** The timeout *)

Lemma parseDigits_nonneg (s : string) :
  forall acc v, 0 <= acc -> parseDigits acc s = Some v -> 0 <= v.
Proof.
  induction s as [|c s IH]; intros acc v Hacc; simpl.
  - by intros [= <-].
  - unfold digitVal.
    destruct ((48 <=? Z.of_nat (nat_of_ascii c)) && (Z.of_nat (nat_of_ascii c) <=? 57))
      eqn:E; [| discriminate].
    apply andb_true_iff in E as [E1%Z.leb_le E2%Z.leb_le].
    apply IH. lia.
Qed.

(** A value that [ParseInt] returns fits [int64]. *)
Lemma ParseInt_range (s : string) (t : Z) :
  ParseInt s = Some t -> - 2 ^ 63 <= t < 2 ^ 63.
Proof.
  unfold ParseInt. destruct s as [|c s]; [discriminate |].
  set (sd := if Ascii.eqb c "+" then (false, s)
             else if Ascii.eqb c "-" then (true, s) else (false, String c s)).
  destruct sd as [neg digits].
  destruct (parseMagnitude digits) as [un|] eqn:Eu; [| discriminate].
  assert (0 <= un).
  { unfold parseMagnitude in Eu. destruct digits; [discriminate |].
    by eapply (parseDigits_nonneg _ 0). }
  destruct neg; simpl.
  - destruct (Z.ltb_spec (2 ^ 63) un); [discriminate |]. intros [= <-]. lia.
  - destruct (Z.leb_spec (2 ^ 63) un); [discriminate |]. intros [= <-]. lia.
Qed.






(** * Further properties of the code *)

(** ** [removeItem] and [popSlice] *)

Lemma withoutFirst_middle (item : chan) (pre post : list chan) :
  item ∉ pre -> withoutFirst item (pre ++ item :: post) = pre ++ post.
Proof.
  induction pre as [|v pre IH]; intros Hn; simpl.
  - by rewrite decide_True.
  - apply not_elem_of_cons in Hn as [Hne Hn].
    rewrite decide_False by congruence. by rewrite IH.
Qed.

(** X1.  On a slice that holds the item, [removeItem] returns a slice with
    exactly the first occurrence taken out and the order of the others kept;
    on a non-empty slice that does not hold it, it returns the slice
    itself. *)
Theorem removeItem_first_occurrence (pre post s : list chan) (item : chan) :
  (item ∉ pre -> removeItem (pre ++ item :: post) item = Ok (pre ++ post)) /\
  (s <> [] -> item ∉ s -> removeItem s item = Ok s).
Proof.
  split.
  - intros Hn. rewrite <- (withoutFirst_middle item pre post Hn).
    destruct pre; apply removeItem_cons.
  - intros Hs Hn. destruct s as [|v s]; [done |].
    rewrite removeItem_cons. by rewrite withoutFirst_not_in.
Qed.

Lemma removeItem_first_occurrence_witness :
  removeItem [Chan 0; Chan 1; Chan 2; Chan 1] (Chan 1) = Ok [Chan 0; Chan 2; Chan 1] /\
  removeItem [Chan 0; Chan 2] (Chan 1) = Ok [Chan 0; Chan 2].
Proof.
  split.
  - apply (proj1 (removeItem_first_occurrence [Chan 0] [Chan 2; Chan 1] [] (Chan 1))).
    intros H%list_elem_of_singleton. discriminate H.
  - apply (proj2 (removeItem_first_occurrence [] [] [Chan 0; Chan 2] (Chan 1)));
      [discriminate |].
    intros [H|[H|H]%elem_of_cons]%elem_of_cons;
      [discriminate H | discriminate H | by apply elem_of_nil in H].
Defined.

(** ** The store as a FIFO queue per name *)

(** X2.  Read through [index], the store is a queue per name: [push]
    appends the message at the tail of its name's sequence, [pop] returns the
    head of its name's sequence (or not found when there is none) and leaves
    the tail, and neither changes the sequence of any other name nor the
    registry nor any channel. *)
Theorem store_is_queue (st : State) (key : string) :
  (forall msg,
     (forall k,
        index (data (final (push key msg st))) k =
          if decide (k = key) then index (data st) key ++ [msg]
          else index (data st) k) /\
     pool (final (push key msg st)) = pool st /\
     chans (final (push key msg st)) = chans st) /\
  (exists st',
     pop key st =
       Done (match index (data st) key with
             | [] => ("", false)
             | v :: _ => (v, true)
             end) st' /\
     (forall k,
        index (data st') k =
          if decide (k = key) then tail (index (data st) key)
          else index (data st) k) /\
     pool st' = pool st /\ chans st' = chans st).
Proof.
  split.
  - intros msg. split; [| done]. intros k. simpl. unfold index at 1.
    destruct (decide (k = key)) as [->|Hne].
    + by rewrite lookup_insert_eq.
    + by rewrite lookup_insert_ne.
  - destruct (index (data st) key) as [|v rest] eqn:E.
    + exists st. split; [by apply pop_none |]. split; [| done].
      intros k. destruct (decide (k = key)) as [->|]; done.
    + apply index_cons in E. eexists. split; [by apply pop_cons |].
      split; [| done]. intros k. simpl.
      destruct (decide (k = key)) as [->|Hne]; [apply index_after_pop |].
      unfold index. destruct rest;
        by rewrite ?lookup_delete_ne, ?lookup_insert_ne.
Qed.

(** X3.  Round trip: pushing a message under a name that has no key and
    popping that name returns the message and restores the store map
    exactly (the key is gone again). *)
Theorem push_pop_roundtrip (st : State) (key msg : string) :
  data st !! key = None ->
  pop key (final (push key msg st)) = Done (msg, true) st.
Proof.
  intros H. simpl.
  rewrite (pop_cons _ key msg []).
  - f_equal. destruct st as [d p c]. unfold set_data. simpl in *.
    f_equal. rewrite delete_insert_eq. by apply delete_id.
  - simpl. rewrite (index_None _ _ H). apply lookup_insert_eq.
Qed.

Lemma push_pop_roundtrip_witness :
  pop "jobs" (final (push "jobs" "task1" newState)) = Done ("task1", true) newState.
Proof. apply (push_pop_roundtrip newState "jobs" "task1"). reflexivity. Defined.

(** X4.  Messages buffered earlier come out first: with no waiter
    registered, producing [msgs] on top of an already buffered sequence [old]
    and then issuing as many GETs without timeout as there are messages
    answers [old] followed by [msgs]. *)
Theorem fifo_across_batches (st : State) (name : string) (old msgs : list string) :
  pool st !! name = None ->
  index (data st) name = old ->
  exists st1 st2,
    produceAll name msgs st = Done tt st1 /\
    consumeN name (length (old ++ msgs)) st1 =
      Done (map (fun m => Replied (okResp m)) (old ++ msgs)) st2 /\
    index (data st2) name = [].
Proof.
  intros Hp Hd.
  destruct (produceAll_no_waiter name msgs st Hp) as (st1 & Hrun & Hidx & _).
  rewrite Hd in Hidx.
  destruct (consumeN_drains name (old ++ msgs) st1 Hidx) as (st2 & Hget & Hnil & _).
  by exists st1, st2.
Qed.

Lemma fifo_across_batches_witness :
  exists st1 st2,
    produceAll "jobs" ["c"] (mkState {["jobs" := ["a"; "b"]]} ∅ []) = Done tt st1 /\
    consumeN "jobs" 3 st1 =
      Done [Replied (okResp "a"); Replied (okResp "b"); Replied (okResp "c")] st2 /\
    index (data st2) "jobs" = [].
Proof.
  apply (fifo_across_batches (mkState {["jobs" := ["a"; "b"]]} ∅ []) "jobs"
           ["a"; "b"] ["c"]); reflexivity.
Defined.

(** ** The registry *)

Lemma deregister_after_register (st : State) (name : string) (ch : chan) :
  ch ∉ index (pool st) name ->
  pool st !! name <> Some [] ->
  removeFromQueue name ch (final (addToQueue name ch st)) = Done tt st.
Proof.
  intros Hn Hne.
  assert (Hw : withoutFirst ch (index (pool st) name ++ [ch]) = index (pool st) name)
    by (rewrite withoutFirst_middle by done; apply app_nil_r).
  assert (Hl : pool (final (addToQueue name ch st)) !! name
               = Some (index (pool st) name ++ [ch]))
    by (simpl; apply lookup_insert_eq).
  destruct st as [d p c]. cbn [pool] in Hn, Hne, Hw, Hl.
  destruct (index p name) as [|v l] eqn:E.
  - rewrite (removeFromQueue_entry _ name ch ch [] Hl).
    change [ch] with ([] ++ [ch]). rewrite Hw.
    unfold set_pool. cbn. repeat f_equal. rewrite E.
    rewrite delete_insert_eq. apply delete_id.
    apply index_nil in E as [E|E]; [done | congruence].
  - rewrite (removeFromQueue_entry _ name ch v (l ++ [ch]) Hl).
    change (v :: l ++ [ch]) with ((v :: l) ++ [ch]). rewrite Hw.
    unfold set_pool. cbn. repeat f_equal. rewrite E.
    rewrite insert_insert_eq. apply insert_id. by apply index_cons.
Qed.

(** X5.  Round trip: registering a handle that the name's sequence does not
    hold and deregistering it again restores the registry exactly, provided
    the name was not bound to an empty sequence. *)
Theorem register_deregister_roundtrip (st : State) (name : string) (ch : chan) :
  ch ∉ index (pool st) name ->
  pool st !! name <> Some [] ->
  removeFromQueue name ch (final (addToQueue name ch st)) = Done tt st.
Proof. apply deregister_after_register. Qed.

Lemma register_deregister_roundtrip_witness :
  removeFromQueue "jobs" (Chan 1)
    (final (addToQueue "jobs" (Chan 1)
              (mkState ∅ {["jobs" := [Chan 0]]} [mkChan None false; mkChan None false])))
  = Done tt (mkState ∅ {["jobs" := [Chan 0]]} [mkChan None false; mkChan None false]).
Proof.
  apply (register_deregister_roundtrip
           (mkState ∅ {["jobs" := [Chan 0]]} [mkChan None false; mkChan None false])
           "jobs" (Chan 1)).
  - intros H%list_elem_of_singleton. discriminate H.
  - discriminate.
Defined.

(** X6.  Waiters are served in the order they registered: a handle
    registered behind others does not overtake them ([sendMessage] still
    writes to the old head, and the new handle is last in the sequence),
    and a handle registered under a name without entry is the one written
    to. *)
Theorem earliest_waiter_served (st : State) (name msg : string) (ch : chan) :
  (forall h rest,
     pool st !! name = Some (Chan h :: rest) ->
     chans st !! h = Some (mkChan None false) ->
     exists st',
       sendMessage name msg (final (addToQueue name ch st)) = Done true st' /\
       chans st' = <[h := mkChan (Some msg) false]> (chans st) /\
       pool st' !! name = Some (Chan h :: rest ++ [ch])) /\
  (forall id,
     pool st !! name = None ->
     ch = Chan id ->
     chans st !! id = Some (mkChan None false) ->
     exists st',
       sendMessage name msg (final (addToQueue name ch st)) = Done true st' /\
       chans st' = <[id := mkChan (Some msg) false]> (chans st) /\
       pool st' !! name = Some [ch]).
Proof.
  split.
  - intros h rest Hp Hc. eexists. split.
    + rewrite (sendMessage_head _ name msg (Chan h) (rest ++ [ch])).
      * by rewrite (send_free h msg (final (addToQueue name ch st)) Hc).
      * simpl. rewrite (index_Some _ _ _ Hp). apply lookup_insert_eq.
    + simpl. split; [done |]. rewrite (index_Some _ _ _ Hp). apply lookup_insert_eq.
  - intros id Hp -> Hc. eexists. split.
    + rewrite (sendMessage_head _ name msg (Chan id) []).
      * by rewrite (send_free id msg (final (addToQueue name (Chan id) st)) Hc).
      * simpl. rewrite (index_None _ _ Hp). apply lookup_insert_eq.
    + simpl. split; [done |]. rewrite (index_None _ _ Hp). apply lookup_insert_eq.
Qed.

Lemma earliest_waiter_served_witness :
  exists st',
    sendMessage "jobs" "m"
      (final (addToQueue "jobs" (Chan 1)
                (mkState ∅ {["jobs" := [Chan 0]]} [mkChan None false; mkChan None false])))
    = Done true st' /\
    chans st' = [mkChan (Some "m") false; mkChan None false] /\
    pool st' !! "jobs" = Some [Chan 0; Chan 1].
Proof.
  assert (Hp : pool (mkState ∅ {["jobs" := [Chan 0]]}
                       [mkChan None false; mkChan None false]) !! "jobs"
               = Some [Chan 0]) by reflexivity.
  assert (Hc : chans (mkState ∅ {["jobs" := [Chan 0]]}
                        [mkChan None false; mkChan None false]) !! 0%nat
               = Some (mkChan None false)) by reflexivity.
  exact (proj1 (earliest_waiter_served _ "jobs" "m" (Chan 1)) 0%nat [] Hp Hc).
Defined.

(** ** Names do not interfere *)

Lemma pop_other (st : State) (key k : string) :
  k <> key -> data (final (pop key st)) !! k = data st !! k.
Proof.
  intros Hne. unfold pop. destruct (data st !! key) as [values|]; [| done].
  destruct (Slice.len values =? 0)%Z; [done |].
  destruct (popSlice values) as [v newValues].
  destruct (Slice.len newValues =? 0)%Z; simpl.
  - by rewrite lookup_delete_ne.
  - by rewrite lookup_insert_ne.
Qed.

Lemma removeFromQueue_other (st : State) (name k : string) (ch : chan) :
  k <> name ->
  pool (final (removeFromQueue name ch st)) !! k = pool st !! k.
Proof.
  intros Hne. unfold removeFromQueue, bind, gets, lift.
  destruct (removeItem (index (pool st) name) ch) as [new|e]; [| done].
  destruct (Slice.len new =? 0)%Z; simpl.
  - by rewrite lookup_delete_ne.
  - by rewrite lookup_insert_ne.
Qed.

Lemma produce_final (st : State) (name msg : string) :
  pool (final (produce name msg st)) = pool st /\
  (forall k, k <> name -> data (final (produce name msg st)) !! k = data st !! k).
Proof.
  unfold produce, bind.
  pose proof (sendMessage_maps st name msg) as [Hd Hp].
  destruct (sendMessage name msg st) as [[] st'|e st'|c st']; simpl in *;
    (split; [done |]); intros k Hk; rewrite ?lookup_insert_ne by done;
    by rewrite Hd.
Qed.

Lemma consume_final (st : State) (name : string) (timeout : Z) (hasTimeout : bool) :
  forall k, k <> name ->
    data (final (consume name timeout hasTimeout st)) !! k = data st !! k /\
    pool (final (consume name timeout hasTimeout st)) !! k = pool st !! k.
Proof.
  intros k Hk. destruct (index (data st) name) as [|v rest] eqn:E.
  - unfold consume. rewrite (bind_Done _ _ _ _ _ (pop_none st name E)).
    destruct hasTimeout; simpl; [| done].
    by rewrite lookup_insert_ne.
  - apply index_cons in E. rewrite (consume_found _ _ _ _ _ _ E). simpl.
    split; [| done]. destruct rest; by rewrite ?lookup_delete_ne, ?lookup_insert_ne.
Qed.

(** What the tail of a GET handler (deregister, answer, deferred close)
    leaves in the two maps. *)
Lemma finish_final (st : State) (name : string) (ch : chan) (g : getState) :
  data (final (defer (close ch) (run removeFromQueue name ch; ret g) st)) = data st /\
  pool (final (defer (close ch) (run removeFromQueue name ch; ret g) st))
    = pool (final (removeFromQueue name ch st)).
Proof.
  unfold defer, bind.
  pose proof (removeFromQueue_chans st name ch) as [_ Hd].
  destruct (removeFromQueue name ch st) as [[] st1|e st1|c st1]; simpl in *;
    [| | done].
  - destruct (chan_ops_maps st1 (Close ch) I) as [Ed Ep]. simpl in Ed, Ep.
    unfold ret. destruct (close ch st1); simpl in *; by rewrite Ed, Ep, Hd.
  - destruct (chan_ops_maps st1 (Close ch) I) as [Ed Ep]. simpl in Ed, Ep.
    destruct (close ch st1); simpl in *; by rewrite Ed, Ep, Hd.
Qed.

(** X7.  Requests on one queue name never change what the store or the
    registry hold under another name: this holds for a produce, for the
    start of a GET (with or without timeout) and for every later step of a
    waiting GET, whatever their outcome. *)
Theorem names_independent (st : State) (name k : string) :
  k <> name ->
  (forall msg,
     data (final (produce name msg st)) !! k = data st !! k /\
     pool (final (produce name msg st)) !! k = pool st !! k) /\
  (forall timeout hasTimeout,
     data (final (consume name timeout hasTimeout st)) !! k = data st !! k /\
     pool (final (consume name timeout hasTimeout st)) !! k = pool st !! k) /\
  (forall ch timeout msg fired,
     let after g := final (resume g fired st) in
     (data (after (Selecting name ch timeout)) !! k = data st !! k /\
      pool (after (Selecting name ch timeout)) !! k = pool st !! k) /\
     (data (after (Received name ch msg)) !! k = data st !! k /\
      pool (after (Received name ch msg)) !! k = pool st !! k) /\
     (data (after (Expired name ch)) !! k = data st !! k /\
      pool (after (Expired name ch)) !! k = pool st !! k)).
Proof.
  intros Hk. split; [| split].
  - intros msg. destruct (produce_final st name msg) as [Hp Hd].
    split; [by apply Hd | by rewrite Hp].
  - intros timeout hasTimeout. by apply consume_final.
  - intros ch timeout msg fired after. subst after. cbn beta.
    split; [| split].
    + simpl. destruct fired; [done |]. unfold bind.
      destruct (chan_ops_maps st (Recv ch) I) as [Ed Ep]. simpl in Ed, Ep.
      destruct (recv ch st); simpl in *; by rewrite Ed, Ep.
    + simpl. destruct (finish_final st name ch (Replied (okResp msg))) as [Ed Ep].
      rewrite Ed, Ep. split; [done | by apply removeFromQueue_other].
    + simpl. destruct (finish_final st name ch (Replied notFound)) as [Ed Ep].
      rewrite Ed, Ep. split; [done | by apply removeFromQueue_other].
Qed.

Lemma names_independent_witness :
  data (final (produce "a" "m" (mkState {["b" := ["x"]]} ∅ []))) !! "b" = Some ["x"] /\
  pool (final (consume "a" 5 true (mkState ∅ {["b" := [Chan 0]]} [mkChan None false])))
    !! "b" = Some [Chan 0].
Proof.
  assert (Hne : "b" <> "a") by discriminate.
  split.
  - exact (proj1 (proj1 (names_independent (mkState {["b" := ["x"]]} ∅ []) "a" "b" Hne) "m")).
  - exact (proj2 (proj1 (proj2 (names_independent
             (mkState ∅ {["b" := [Chan 0]]} [mkChan None false]) "a" "b" Hne)) 5 true)).
Defined.

(** ** Request parsing and dispatch *)

Lemma cut_None_iff (sep : ascii) (s : string) :
  cut sep s = None <-> ~ In sep (list_ascii_of_string s).
Proof.
  induction s as [|c s IH]; simpl.
  - split; [intros _ [] | done].
  - destruct (Ascii.eqb_spec c sep) as [->|Hne].
    + split; [discriminate | intros H; destruct H; by left].
    + destruct (cut sep s) as [[a b]|].
      * split; [discriminate |]. intros H. exfalso.
        assert (Hs : ~ In sep (list_ascii_of_string s)) by (intros ?; apply H; by right).
        apply IH in Hs. discriminate Hs.
      * split; [| done]. intros _ [?|Hin]; [done |]. by apply (proj1 IH).
Qed.

Lemma cut_first (sep : ascii) (a b : string) :
  cut sep a = None -> cut sep (a +:+ String sep b)%string = Some (a, b).
Proof.
  induction a as [|c a IH]; simpl.
  - intros _. by rewrite Ascii.eqb_refl.
  - destruct (Ascii.eqb_spec c sep); [discriminate |].
    destruct (cut sep a) as [[]|] eqn:E; [discriminate |].
    intros _.
    change ((a +:+ String sep b)%string) with (String.append a (String sep b)) in IH.
    by rewrite IH.
Qed.

(** X8.  [getQueueName] accepts exactly the paths that hold one ["/"]: the
    name it returns is the text after that ["/"] and contains none itself,
    the text before it contains none either, and every path of that shape is
    accepted with that name.  In particular ["/" ++ name] yields [name] for
    every name without ["/"], the empty one included. *)
Theorem getQueueName_shape (u : URL) (name : string) :
  getQueueName u = (name, true) <->
  exists a,
    Path u = (a +:+ String "/" name)%string /\
    ~ In "/"%char (list_ascii_of_string a) /\
    ~ In "/"%char (list_ascii_of_string name).
Proof.
  rewrite getQueueName_cut. split.
  - destruct (cut "/"%char (Path u)) as [[a b]|] eqn:E; [| discriminate].
    destruct (cut "/"%char b) as [[]|] eqn:Eb; [discriminate |].
    intros [= <-]. exists a. split; [by apply cut_Some |].
    split; apply cut_None_iff; [by eapply cut_Some_prefix | done].
  - intros (a & -> & Ha%cut_None_iff & Hn%cut_None_iff).
    rewrite (cut_first _ a name Ha). by rewrite Hn.
Qed.

Lemma getQueueName_shape_witness :
  getQueueName (mkURL "/jobs" ∅) = ("jobs", true).
Proof.
  apply (proj2 (getQueueName_shape (mkURL "/jobs" ∅) "jobs")).
  exists "". split; [reflexivity |]. split.
  - intros [].
  - intros [H|[H|[H|[H|[]]]]]; discriminate H.
Defined.

(** X9.  A request is answered 400 exactly when its method is neither PUT
    nor GET, or its path is not accepted by [getQueueName], or it is a PUT
    whose [v] parameter is missing or empty; such a request leaves the store,
    the registry and the channels untouched. *)
Theorem bad_request_untouched (m : method) (u : URL) (st : State) :
  let bad :=
    m = MethodOther \/ snd (getQueueName u) = false \/
    (m = MethodPut /\ Get (Query u) "v" = "") in
  (bad -> queueHandler m u st = Done (Replied badRequest) st) /\
  (forall r st',
     queueHandler m u st = Done (Replied r) st' -> status r = 400 ->
     bad /\ st' = st).
Proof.
  intros bad. subst bad. split.
  - intros [-> | [Hn | [-> Hv]]]; [done | |].
    + destruct (getQueueName_rejected st u Hn) as [Hput Hget].
      destruct m; simpl; [| done | done].
      unfold bind. by rewrite Hput.
    + simpl. unfold bind, putQueueHandler, getQueueMessage.
      destruct (getQueueName u) as [name []]; simpl; [| done].
      by rewrite Hv.
  - intros r st'. destruct m; simpl.
    + unfold bind, putQueueHandler, getQueueMessage.
      destruct (getQueueName u) as [name []]; simpl;
        [| intros [= <- <-] _; split; [right; by left | done]].
      destruct (String.eqb_spec (Get (Query u) "v") "") as [Hv|Hv]; simpl.
      * intros [= <- <-] _. split; [| done]. right. right. done.
      * unfold bind. destruct (produce name (Get (Query u) "v") st); simpl;
          [| discriminate | discriminate].
        intros [= <- <-]. discriminate.
    + unfold getQueueHandler.
      destruct (getQueueName u) as [name []]; simpl;
        [| intros [= <- <-] _; split; [right; by left | done]].
      destruct (getRequestTimeout u) as [timeout hasTimeout].
      destruct (index (data st) name) as [|v rest] eqn:E.
      * unfold consume. rewrite (bind_Done _ _ _ _ _ (pop_none st name E)).
        destruct hasTimeout; simpl; [discriminate |].
        intros [= <- <-]. discriminate.
      * apply index_cons in E. rewrite (consume_found _ _ _ _ _ _ E).
        intros [= <- <-]. discriminate.
    + intros [= <- <-] _. split; [by left | done].
Qed.

Lemma bad_request_untouched_witness :
  queueHandler MethodPut (mkURL "/jobs" ∅) newState = Done (Replied badRequest) newState /\
  queueHandler MethodGet (mkURL "/a/b" ∅) newState = Done (Replied badRequest) newState.
Proof.
  split.
  - apply (proj1 (bad_request_untouched MethodPut (mkURL "/jobs" ∅) newState)).
    right. right. split; reflexivity.
  - apply (proj1 (bad_request_untouched MethodGet (mkURL "/a/b" ∅) newState)).
    right. left. reflexivity.
Defined.

(** X10.  A GET whose [timeout] parameter is missing, empty or not an
    [int64] in decimal does not wait: when nothing is buffered under the name
    it is answered 404 at once and nothing changes. *)
Theorem get_without_wait (u : URL) (name : string) (st : State) :
  getQueueName u = (name, true) ->
  ParseInt (Get (Query u) "timeout") = None ->
  index (data st) name = [] ->
  getRequestTimeout u = (0, false) /\
  getQueueHandler u st = Done (Replied notFound) st.
Proof.
  intros Hn Hp Hd.
  assert (Ht : getRequestTimeout u = (0, false)).
  { unfold getRequestTimeout. rewrite Hp.
    by destruct (String.eqb (Get (Query u) "timeout") ""). }
  split; [exact Ht |].
  unfold getQueueHandler. rewrite Hn, Ht. simpl.
  by apply consume_empty_nowait.
Qed.

Lemma get_without_wait_witness :
  getQueueHandler (mkURL "/jobs" {["timeout" := ["1.5"]]}) newState
    = Done (Replied notFound) newState /\
  getQueueHandler (mkURL "/jobs" ∅) newState = Done (Replied notFound) newState.
Proof.
  split.
  - apply (get_without_wait (mkURL "/jobs" {["timeout" := ["1.5"]]}) "jobs" newState);
      reflexivity.
  - apply (get_without_wait (mkURL "/jobs" ∅) "jobs" newState); reflexivity.
Defined.

(** ** A waiting GET from start to end *)

Lemma close_last (st : State) :
  close (Chan (length (chans st)))
    (set_chans (fun h => h ++ [mkChan None false]) st)
  = Done tt (set_chans (fun h => h ++ [mkChan None true]) st).
Proof.
  unfold close. cbn [chans set_chans].
  rewrite (list_lookup_middle (chans st) [] (mkChan None false)) by done.
  cbn [closed buf]. unfold set_chans. cbn. do 2 f_equal.
  replace (length (chans st)) with (length (chans st) + 0)%nat at 1 by lia.
  by rewrite insert_app_r.
Qed.

Lemma consume_waits (st : State) (name : string) (timeout : Z) :
  index (data st) name = [] ->
  consume name timeout true st =
    Done (Selecting name (Chan (length (chans st))) timeout)
         (final (addToQueue name (Chan (length (chans st)))
                   (set_chans (fun h => h ++ [mkChan None false]) st))).
Proof.
  intros Hd. unfold consume.
  by rewrite (bind_Done _ _ _ _ _ (pop_none st name Hd)).
Qed.

(** X11.  Wait, then time out.  A GET with a timeout that finds nothing
    buffered makes a channel and registers it at the tail of the name's
    sequence; when its timer fires it deregisters the channel, answers 404
    and closes the channel.  Afterwards the store and the registry are
    exactly as before the request, and the only trace is the closed, empty
    channel. *)
Theorem wait_then_timeout (st : State) (name : string) (timeout : Z) :
  index (data st) name = [] ->
  pool st !! name <> Some [] ->
  Chan (length (chans st)) ∉ index (pool st) name ->
  let ch := Chan (length (chans st)) in
  exists st1,
    consume name timeout true st = Done (Selecting name ch timeout) st1 /\
    pool st1 !! name = Some (index (pool st) name ++ [ch]) /\
    resume (Selecting name ch timeout) true st1 = Done (Expired name ch) st1 /\
    resume (Expired name ch) true st1 =
      Done (Replied notFound)
           (set_chans (fun h => h ++ [mkChan None true]) st).
Proof.
  intros Hd Hne Hfresh ch. eexists. split; [by apply consume_waits |].
  split; [simpl; apply lookup_insert_eq |]. split; [reflexivity |].
  cbn [resume]. unfold defer, bind. subst ch.
  rewrite (deregister_after_register
             (set_chans (fun h => h ++ [mkChan None false]) st) name _ Hfresh Hne).
  unfold ret. by rewrite close_last.
Qed.

Lemma wait_then_timeout_witness :
  exists st1,
    consume "jobs" 2000000000 true newState
      = Done (Selecting "jobs" (Chan 0) 2000000000) st1 /\
    resume (Expired "jobs" (Chan 0)) true st1
      = Done (Replied notFound) (mkState ∅ ∅ [mkChan None true]).
Proof.
  destruct (wait_then_timeout newState "jobs" 2000000000)
    as (st1 & H1 & _ & _ & H2).
  - reflexivity.
  - discriminate.
  - apply not_elem_of_nil.
  - exists st1. split; [exact H1 | exact H2].
Defined.

(** X12.  Wait, then deliver.  A GET with a timeout finds nothing buffered
    and no other waiter, and parks; a produce on the same name is then
    handed to it and is not buffered; the GET takes the message out of its
    channel, deregisters, answers 200 with exactly that message and closes
    the channel.  Afterwards the store and the registry are exactly as
    before the two requests. *)
Theorem wait_then_deliver (st : State) (name msg : string) (timeout : Z) :
  index (data st) name = [] ->
  pool st !! name = None ->
  let ch := Chan (length (chans st)) in
  exists st1 st2,
    consume name timeout true st = Done (Selecting name ch timeout) st1 /\
    produce name msg st1 = Done tt st2 /\
    data st2 = data st /\
    resume (Selecting name ch timeout) false st2 = Done (Received name ch msg) st1 /\
    resume (Received name ch msg) false st1 =
      Done (Replied (okResp msg))
           (set_chans (fun h => h ++ [mkChan None true]) st).
Proof.
  intros Hd Hp ch. subst ch.
  set (st0 := set_chans (fun h => h ++ [mkChan None false]) st).
  set (st1 := final (addToQueue name (Chan (length (chans st))) st0)).
  assert (Hreg : pool st1 !! name = Some [Chan (length (chans st))]).
  { subst st1 st0. simpl. rewrite (index_None _ _ Hp). apply lookup_insert_eq. }
  assert (Hfree : chans st1 !! length (chans st) = Some (mkChan None false)).
  { subst st1 st0. simpl. by apply list_lookup_middle. }
  exists st1, (set_chans (<[length (chans st) := mkChan (Some msg) false]>) st1).
  split; [by apply consume_waits |]. split; [| split; [done |]; split].
  - unfold produce.
    assert (Hs : sendMessage name msg st1 =
                 Done true (set_chans (<[length (chans st) := mkChan (Some msg) false]>) st1)).
    { rewrite (sendMessage_head _ _ _ _ _ Hreg). by rewrite (send_free _ _ _ Hfree). }
    by rewrite (bind_Done _ _ _ _ _ Hs).
  - cbn [resume]. unfold bind, recv. cbn [chans set_chans].
    rewrite list_lookup_insert_eq by (by eapply lookup_lt_Some).
    cbn [buf closed]. unfold ret. do 2 f_equal.
    destruct st1 as [d p c]. unfold set_chans. cbn in *. f_equal.
    rewrite list_insert_insert_eq. by apply list_insert_id.
  - cbn [resume]. unfold defer, bind. subst st1.
    rewrite (deregister_after_register st0 name (Chan (length (chans st)))).
    + unfold ret. subst st0. by rewrite close_last.
    + subst st0. simpl. rewrite (index_None _ _ Hp). apply not_elem_of_nil.
    + subst st0. simpl. by rewrite Hp.
Qed.

Lemma wait_then_deliver_witness :
  exists st1 st2,
    consume "jobs" 2000000000 true newState
      = Done (Selecting "jobs" (Chan 0) 2000000000) st1 /\
    produce "jobs" "late" st1 = Done tt st2 /\
    resume (Selecting "jobs" (Chan 0) 2000000000) false st2
      = Done (Received "jobs" (Chan 0) "late") st1 /\
    resume (Received "jobs" (Chan 0) "late") false st1
      = Done (Replied (okResp "late")) (mkState ∅ ∅ [mkChan None true]).
Proof.
  destruct (wait_then_deliver newState "jobs" "late" 2000000000)
    as (st1 & st2 & H1 & H2 & _ & H3 & H4); [reflexivity | reflexivity |].
  exists st1, st2. repeat split; assumption.
Defined.

(** ** The server as interleaved handlers *)

(** How a handler's position reads as a position of [getQueueHandler]. *)
Lemma regOf_chanOf (t : thread) (name : string) (c : chan) :
  regOf t = Some (name, c) -> chanOf t = Some c.
Proof. destruct t; simpl; congruence. Qed.

Lemma lookup_snoc_inv {A : Type} (l : list A) (x y : A) (i : nat) :
  (l ++ [x]) !! i = Some y -> l !! i = Some y \/ y = x.
Proof.
  intros [H | [_ H]]%lookup_app_Some; [by left | right].
  destruct (i - length l)%nat; simpl in H; [congruence | discriminate].
Qed.

Lemma lookup_update_inv {A : Type} (l : list A) (i j : nat) (x y : A) :
  <[i := x]> l !! j = Some y -> (j = i /\ y = x) \/ (j <> i /\ l !! j = Some y).
Proof.
  destruct (decide (i = j)) as [->|Hne].
  - intros H. left. split; [done |].
    destruct (decide (j < length l)%nat) as [Hlt|Hge].
    + rewrite list_lookup_insert_eq in H by done. congruence.
    + rewrite list_insert_ge in H by lia.
      apply lookup_lt_Some in H. lia.
  - rewrite list_lookup_insert_ne by done. intros H. right. split; [congruence | done].
Qed.

Lemma lookup_update_other {A : Type} (l : list A) (i j : nat) (x y : A) :
  j <> i -> l !! j = Some y -> <[i := x]> l !! j = Some y.
Proof. intros Hne H. by rewrite list_lookup_insert_ne. Qed.

Lemma lookup_update_self {A : Type} (l : list A) (i : nat) (x y : A) :
  l !! i = Some y -> <[i := x]> l !! i = Some x.
Proof. intros H. apply list_lookup_insert_eq. by eapply lookup_lt_Some. Qed.

Lemma wf_init : wf initSys.
Proof.
  split; simpl.
  - apply noEmptyKey_empty.
  - intros name l H. by rewrite lookup_empty in H.
  - intros name l c H. by rewrite lookup_empty in H.
  - intros i t c H. by rewrite lookup_nil in H.
  - intros i j t t' c H. by rewrite lookup_nil in H.
  - intros i t name c H. by rewrite lookup_nil in H.
Qed.

(** A handler that holds no channel joins. *)
Lemma wf_append (sys : System) (t : thread) :
  chanOf t = None -> wf sys ->
  wf (mkSys (shared sys) (threads sys ++ [t])).
Proof.
  intros Ht [K N O P U R].
  assert (Hr : forall name c, regOf t <> Some (name, c)).
  { intros name c H%regOf_chanOf. congruence. }
  split; simpl.
  - exact K.
  - exact N.
  - intros name l c Hl Hc. destruct (O name l c Hl Hc) as (i & t0 & Hi & Hreg).
    exists i, t0. split; [| done]. by apply lookup_app_l_Some.
  - intros i t0 c [Hi | ->]%lookup_snoc_inv Hc; [by eapply P | congruence].
  - intros i j t1 t2 c [Hi | ->]%lookup_snoc_inv [Hj | ->]%lookup_snoc_inv H1 H2;
      try congruence. by eapply U.
  - intros i t0 name c [Hi | ->]%lookup_snoc_inv Hreg; [by eapply R |].
    by destruct (Hr name c).
Qed.

(** Handler [i] moves on without changing what it holds, the registry is
    unchanged, and no open channel is closed or lost. *)
Lemma wf_same_holdings (sys : System) (i : nat) (t t' : thread) (st' : State) :
  threads sys !! i = Some t ->
  chanOf t' = chanOf t -> regOf t' = regOf t ->
  pool st' = pool (shared sys) ->
  (forall id cs, chans (shared sys) !! id = Some cs -> closed cs = false ->
     exists cs', chans st' !! id = Some cs' /\ closed cs' = false) ->
  wf sys ->
  wf (mkSys st' (<[i := t']> (threads sys))).
Proof.
  intros Hi Hc Hr Hp Hch [K N O P U R].
  assert (Hback : forall j u, <[i := t']> (threads sys) !! j = Some u ->
            exists u0, threads sys !! j = Some u0 /\
                       chanOf u = chanOf u0 /\ regOf u = regOf u0).
  { intros j u [[-> ->] | [_ Hj]]%lookup_update_inv; eauto. }
  split; simpl; rewrite ?Hp.
  - exact K.
  - exact N.
  - intros name l c Hl Hin. destruct (O name l c Hl Hin) as (j & u & Hj & Hreg).
    destruct (decide (j = i)) as [->|Hne].
    + exists i, t'. split; [by eapply lookup_update_self |].
      rewrite Hr. congruence.
    + exists j, u. split; [by apply lookup_update_other | done].
  - intros j u c Hj Hcu. destruct (Hback j u Hj) as (u0 & Hj0 & Ec & _).
    rewrite Ec in Hcu. destruct (P j u0 c Hj0 Hcu) as (id & cs & -> & Hcs & Hopen).
    destruct (Hch id cs Hcs Hopen) as (cs' & Hcs' & Hopen').
    by exists id, cs'.
  - intros j k u1 u2 c Hj Hk H1 H2.
    destruct (Hback j u1 Hj) as (v1 & Hj0 & E1 & _).
    destruct (Hback k u2 Hk) as (v2 & Hk0 & E2 & _).
    rewrite E1 in H1. rewrite E2 in H2. by eapply U.
  - intros j u name c Hj Hreg. destruct (Hback j u Hj) as (u0 & Hj0 & _ & Er).
    rewrite Er in Hreg. by eapply R.
Qed.

Lemma withoutFirst_keeps (item x : chan) (s : list chan) :
  x ∈ s -> x <> item -> x ∈ withoutFirst item s.
Proof.
  induction s as [|v s IH]; [done |]. simpl. intros Hin Hne.
  destruct (decide (v = item)) as [->|Hv].
  - apply elem_of_cons in Hin as [?|?]; [congruence | done].
  - apply elem_of_cons in Hin as [->|?]; [apply list_elem_of_here |].
    apply list_elem_of_further. by apply IH.
Qed.

Lemma withoutFirst_NoDup_kept (item : chan) (s : list chan) :
  NoDup s -> NoDup (withoutFirst item s).
Proof.
  induction 1 as [|v s Hv Hs IH]; simpl; [constructor |].
  destruct (decide (v = item)); [done |].
  constructor; [| done]. intros H%withoutFirst_subset. done.
Qed.

(** A held channel is one of the channels made so far. *)
Lemma held_is_made (sys : System) (i : nat) (t : thread) (c : chan) :
  wf sys -> threads sys !! i = Some t -> chanOf t = Some c ->
  exists id, c = Chan id /\ (id < length (chans (shared sys)))%nat.
Proof.
  intros W Hi Hc. destruct (wf_open sys W i t c Hi Hc) as (id & cs & -> & Hcs & _).
  exists id. split; [done |]. by eapply lookup_lt_Some.
Qed.

Lemma registered_is_made (sys : System) (name : string) (l : list chan) (c : chan) :
  wf sys -> pool (shared sys) !! name = Some l -> c ∈ l ->
  exists id, c = Chan id /\ (id < length (chans (shared sys)))%nat.
Proof.
  intros W Hl Hc. destruct (wf_owner sys W name l c Hl Hc) as (i & t & Hi & Hr).
  eapply held_is_made; [done | done |]. by eapply regOf_chanOf.
Qed.

(** Under the invariant [sendMessage] does not panic, and when it returns
    the registry is unchanged and every open channel is still open. *)
Lemma sendMessage_safe (sys : System) (name msg : string) :
  wf sys ->
  match sendMessage name msg (shared sys) with
  | Done _ st' =>
      pool st' = pool (shared sys) /\
      forall id cs, chans (shared sys) !! id = Some cs -> closed cs = false ->
        exists cs', chans st' !! id = Some cs' /\ closed cs' = false
  | Panic _ _ => False
  | Blocked _ _ => True
  end.
Proof.
  intros W. destruct (pool (shared sys) !! name) as [[|c rest]|] eqn:E.
  - by destruct (wf_keys sys W name [] E).
  - rewrite (sendMessage_head _ _ _ _ _ E).
    destruct (wf_owner sys W name (c :: rest) c E) as (i & t & Hi & Hr);
      [apply list_elem_of_here |].
    destruct (wf_open sys W i t c Hi (regOf_chanOf _ _ _ Hr))
      as (id & [b cl] & -> & Hcs & Hopen).
    simpl in Hopen. subst cl. unfold send. rewrite Hcs. simpl.
    destruct b; [done |]. split; [done |].
    intros id' cs' Hcs' Hopen'. simpl.
    destruct (decide (id = id')) as [<-|Hne].
    + eexists. split; [by eapply lookup_update_self | done].
    + exists cs'. split; [by apply lookup_update_other | done].
  - rewrite (sendMessage_absent _ _ _ E). split; [done |]. eauto.
Qed.

(** [recv] never panics; it changes no map and closes no channel. *)
Lemma recv_safe (st : State) (c : chan) :
  match recv c st with
  | Done _ st' =>
      pool st' = pool st /\
      forall id cs, chans st !! id = Some cs -> closed cs = false ->
        exists cs', chans st' !! id = Some cs' /\ closed cs' = false
  | Panic _ _ => False
  | Blocked _ _ => True
  end.
Proof.
  unfold recv. destruct c as [|id]; [done |].
  destruct (chans st !! id) as [[[m|] cl]|] eqn:E; simpl; [| | done].
  - split; [done |]. intros id' cs' Hcs' Hopen'.
    destruct (decide (id = id')) as [<-|Hne].
    + eexists. split; [by eapply lookup_update_self |].
      rewrite E in Hcs'. by injection Hcs' as <-.
    + exists cs'. split; [by apply lookup_update_other | done].
  - destruct cl; [| done]. split; [done |]. eauto.
Qed.

(** Registration: handler [i] makes a channel and appends it to its name's
    sequence. *)
Lemma wf_register (sys : System) (i : nat) (name : string) (timeout : Z) :
  threads sys !! i = Some (GetRegister name timeout) ->
  wf sys ->
  let ch := Chan (length (chans (shared sys))) in
  wf (mkSys (final (addToQueue name ch
                      (set_chans (fun h => h ++ [mkChan None false]) (shared sys))))
            (<[i := GetSelect name ch timeout]> (threads sys))).
Proof.
  intros Hi W ch.
  assert (Hnew : forall k l c, pool (shared sys) !! k = Some l -> c ∈ l -> c <> ch).
  { intros k l c Hl Hc. destruct (registered_is_made sys k l c W Hl Hc) as (id & -> & Hlt).
    subst ch. intros [= ->]. lia. }
  assert (Hold : forall c, c ∈ index (pool (shared sys)) name -> c <> ch).
  { intros c. unfold index. destruct (pool (shared sys) !! name) as [l|] eqn:E; simpl.
    - by apply (Hnew name l c).
    - by intros ?%elem_of_nil. }
  split; cbn [shared threads final addToQueue modify set_pool set_chans pool chans].
  - apply noEmptyKey_insert; [| apply W]. by destruct (index (pool (shared sys)) name).
  - intros k l. destruct (decide (name = k)) as [<-|Hne].
    + rewrite lookup_insert_eq. intros [= <-]. apply NoDup_app. split; [| split].
      * unfold index. destruct (pool (shared sys) !! name) as [l|] eqn:E; simpl;
          [by eapply (wf_nodup sys W) | constructor].
      * intros c Hc Hin%list_elem_of_singleton. by apply (Hold c).
      * apply NoDup_singleton.
    + rewrite lookup_insert_ne by done. apply W.
  - intros k l c. destruct (decide (name = k)) as [<-|Hne].
    + rewrite lookup_insert_eq. intros [= <-] [Hc|Hc%list_elem_of_singleton]%elem_of_app.
      * unfold index in Hc. destruct (pool (shared sys) !! name) as [l|] eqn:E;
          simpl in Hc; [| by apply elem_of_nil in Hc].
        destruct (wf_owner sys W name l c E Hc) as (j & u & Hj & Hr).
        exists j, u. split; [| done]. apply lookup_update_other; [| done].
        intros ->. rewrite Hi in Hj. injection Hj as <-. discriminate Hr.
      * subst c. exists i, (GetSelect name ch timeout).
        split; [by eapply lookup_update_self | done].
    + rewrite lookup_insert_ne by done. intros Hl Hc.
      destruct (wf_owner sys W k l c Hl Hc) as (j & u & Hj & Hr).
      exists j, u. split; [| done]. apply lookup_update_other; [| done].
      intros ->. rewrite Hi in Hj. injection Hj as <-. discriminate Hr.
  - intros j u c [[-> ->] | [Hne Hj]]%lookup_update_inv Hc.
    + injection Hc as <-. exists (length (chans (shared sys))), (mkChan None false).
      split; [done |]. split; [by apply list_lookup_middle | done].
    + destruct (wf_open sys W j u c Hj Hc) as (id & cs & -> & Hcs & Hopen).
      exists id, cs. split; [done |]. split; [by apply lookup_app_l_Some | done].
  - intros j k u1 u2 c
      [[-> ->] | [Hnj Hj]]%lookup_update_inv [[-> ->] | [Hnk Hk]]%lookup_update_inv H1 H2.
    + done.
    + injection H1 as <-.
      destruct (held_is_made sys k u2 ch W Hk H2) as (id & [= <-] & Hlt). lia.
    + injection H2 as <-.
      destruct (held_is_made sys j u1 ch W Hj H1) as (id & [= <-] & Hlt). lia.
    + by eapply (wf_unique sys W).
  - intros j u k c [[-> ->] | [Hne Hj]]%lookup_update_inv Hr.
    + injection Hr as <- <-. unfold index at 1. rewrite lookup_insert_eq. simpl.
      apply elem_of_app. right. apply list_elem_of_here.
    + pose proof (wf_registered sys W j u k c Hj Hr) as Hin.
      unfold index at 1. destruct (decide (name = k)) as [<-|Hnk].
      * rewrite lookup_insert_eq. simpl. apply elem_of_app. by left.
      * by rewrite lookup_insert_ne.
Qed.

(** Deregistration: handler [i], which has [ch] registered under [name],
    calls [removeFromQueue].  The call returns. *)
Lemma wf_deregister (sys : System) (i : nat) (t : thread) (name : string)
  (ch : chan) (r : response) :
  threads sys !! i = Some t ->
  regOf t = Some (name, ch) ->
  wf sys ->
  exists st',
    removeFromQueue name ch (shared sys) = Done tt st' /\
    wf (mkSys st' (<[i := GetClose ch r]> (threads sys))).
Proof.
  intros Hi Hr W.
  pose proof (wf_registered sys W i t name ch Hi Hr) as Hin.
  destruct (pool (shared sys) !! name) as [[|v s]|] eqn:E;
    [ rewrite (index_Some _ _ _ E) in Hin; by apply elem_of_nil in Hin
    | | rewrite (index_None _ _ E) in Hin; by apply elem_of_nil in Hin ].
  clear Hin. eexists. split; [by eapply removeFromQueue_entry |].
  pose proof (wf_nodup sys W name _ E) as Hnd.
  pose proof (withoutFirst_NoDup ch _ Hnd) as Hgone.
  pose proof (withoutFirst_NoDup_kept ch _ Hnd) as Hnd'.
  pose proof (fun x => withoutFirst_subset ch x (v :: s)) as Hsub.
  pose proof (fun x => withoutFirst_keeps ch x (v :: s)) as Hkeep.
  set (l' := withoutFirst ch (v :: s)) in *.
  assert (Hname : (match l' with [] => delete name | c0 :: l0 => <[name := c0 :: l0]> end)
                    (pool (shared sys)) !! name
                  = match l' with [] => None | _ => Some l' end).
  { destruct l'; [apply lookup_delete_eq | apply lookup_insert_eq]. }
  assert (Hother : forall k, k <> name ->
            (match l' with [] => delete name | c0 :: l0 => <[name := c0 :: l0]> end)
              (pool (shared sys)) !! k = pool (shared sys) !! k).
  { intros k Hk. destruct l'; by rewrite ?lookup_delete_ne, ?lookup_insert_ne. }
  assert (Hc : chanOf t = Some ch) by (by eapply regOf_chanOf).
  assert (Hback : forall j u, <[i := GetClose ch r]> (threads sys) !! j = Some u ->
            exists u0, threads sys !! j = Some u0 /\ chanOf u = chanOf u0).
  { intros j u [[-> ->] | [_ Hj]]%lookup_update_inv; eauto. }
  split; cbn [shared threads set_pool pool chans].
  - intros k l. destruct (decide (k = name)) as [->|Hk].
    + rewrite Hname. destruct l'; [discriminate | congruence].
    + rewrite Hother by done. apply W.
  - intros k l. destruct (decide (k = name)) as [->|Hk].
    + rewrite Hname. destruct l'; [discriminate | congruence].
    + rewrite Hother by done. apply W.
  - intros k l c. destruct (decide (k = name)) as [->|Hk].
    + rewrite Hname. intros Hl Hcl.
      assert (Hcl' : c ∈ l') by (destruct l'; [discriminate | congruence]).
      destruct (wf_owner sys W name _ c E (Hsub c Hcl')) as (j & u & Hj & Hru).
      exists j, u. split; [| done]. apply lookup_update_other; [| done].
      intros ->. rewrite Hi in Hj. injection Hj as <-.
      rewrite Hr in Hru. injection Hru as <-. done.
    + rewrite Hother by done. intros Hl Hcl.
      destruct (wf_owner sys W k l c Hl Hcl) as (j & u & Hj & Hru).
      exists j, u. split; [| done]. apply lookup_update_other; [| done].
      intros ->. rewrite Hi in Hj. injection Hj as <-.
      rewrite Hr in Hru. injection Hru as <- <-. done.
  - intros j u c Hj Hcu. destruct (Hback j u Hj) as (u0 & Hj0 & Ec).
    rewrite Ec in Hcu. by eapply (wf_open sys W).
  - intros j k u1 u2 c Hj Hk H1 H2.
    destruct (Hback j u1 Hj) as (v1 & Hj0 & E1).
    destruct (Hback k u2 Hk) as (v2 & Hk0 & E2).
    rewrite E1 in H1. rewrite E2 in H2. by eapply (wf_unique sys W).
  - intros j u k c [[-> ->] | [Hne Hj]]%lookup_update_inv Hru; [discriminate |].
    pose proof (wf_registered sys W j u k c Hj Hru) as Hin.
    unfold index. destruct (decide (k = name)) as [->|Hk].
    + rewrite Hname. rewrite (index_Some _ _ _ E) in Hin.
      assert (Hcl' : c ∈ l').
      { apply Hkeep; [done |]. intros ->. apply Hne.
        by apply (wf_unique sys W j i u t ch Hj Hi (regOf_chanOf _ _ _ Hru)). }
      destruct l'; [by apply elem_of_nil in Hcl' | done].
    + by rewrite Hother.
Qed.

(** The deferred [close]: handler [i] holds [ch], which it has deregistered.
    The call returns. *)
Lemma wf_close (sys : System) (i : nat) (ch : chan) (r : response) :
  threads sys !! i = Some (GetClose ch r) ->
  wf sys ->
  exists st',
    close ch (shared sys) = Done tt st' /\
    wf (mkSys st' (<[i := Finished r]> (threads sys))).
Proof.
  intros Hi W.
  destruct (wf_open sys W i _ ch Hi eq_refl) as (id & [b cl] & -> & Hcs & Hopen).
  simpl in Hopen. subst cl.
  eexists. split; [unfold close; by rewrite Hcs |].
  assert (Hback : forall j u, <[i := Finished r]> (threads sys) !! j = Some u ->
            chanOf u = None \/ (j <> i /\ threads sys !! j = Some u)).
  { intros j u [[-> ->] | [? Hj]]%lookup_update_inv; [by left | by right]. }
  assert (Hfwd : forall j u name c, threads sys !! j = Some u ->
            regOf u = Some (name, c) ->
            <[i := Finished r]> (threads sys) !! j = Some u).
  { intros j u name c Hj Hru. apply lookup_update_other; [| done].
    intros ->. rewrite Hi in Hj. injection Hj as <-. discriminate Hru. }
  split; cbn [shared threads set_chans pool chans closed buf].
  - apply W.
  - apply W.
  - intros k l c Hl Hc. destruct (wf_owner sys W k l c Hl Hc) as (j & u & Hj & Hru).
    exists j, u. split; [by eapply Hfwd | done].
  - intros j u c Hj Hcu. destruct (Hback j u Hj) as [Hn | [Hne Hj0]]; [congruence |].
    destruct (wf_open sys W j u c Hj0 Hcu) as (id' & cs & -> & Hcs' & Hopen).
    exists id', cs. split; [done |]. split; [| done].
    apply lookup_update_other; [| done]. intros ->. apply Hne.
    by apply (wf_unique sys W j i u _ (Chan id) Hj0 Hi Hcu).
  - intros j k u1 u2 c Hj Hk H1 H2.
    destruct (Hback j u1 Hj) as [Hn | [_ Hj0]]; [congruence |].
    destruct (Hback k u2 Hk) as [Hn | [_ Hk0]]; [congruence |].
    by eapply (wf_unique sys W).
  - intros j u k c Hj Hru.
    destruct (Hback j u Hj) as [Hn | [_ Hj0]];
      [apply regOf_chanOf in Hru; congruence |].
    by eapply (wf_registered sys W).
Qed.

Lemma spawn_holds_nothing (m : method) (u : URL) : chanOf (spawn m u) = None.
Proof.
  unfold spawn. destruct m; [| | done].
  - destruct (getQueueName u) as [name []]; cbn [negb]; [| done].
    by destruct (getQueueMessage u) as [msg []].
  - destruct (getQueueName u) as [name []]; cbn [negb]; [| done].
    by destruct (getRequestTimeout u).
Qed.

Lemma open_kept_refl (st st' : State) :
  chans st' = chans st ->
  forall id cs, chans st !! id = Some cs -> closed cs = false ->
    exists cs', chans st' !! id = Some cs' /\ closed cs' = false.
Proof. intros ->. eauto. Qed.

(** Every event keeps the invariant, and no step panics. *)
Lemma wf_step (e : event) (sys : System) :
  wf sys -> exists sys', sysStep e sys = Ok sys' /\ wf sys'.
Proof.
  intros W. destruct e as [m u | i fired]; simpl.
  { eexists. split; [done |]. apply wf_append; [apply spawn_holds_nothing | done]. }
  destruct (threads sys !! i) as [t|] eqn:Hi; [| by exists sys].
  destruct t as [name msg|name msg|name timeout hasTimeout|name timeout
                |name ch timeout|name ch msg|name ch|ch r|r]; cbn [threadStep].
  - pose proof (sendMessage_safe sys name msg W) as Hs. unfold bind.
    destruct (sendMessage name msg (shared sys)) as [b st'|e st'|c st'];
      [| done | by exists sys].
    destruct Hs as [Hp Hopen]. eexists. split; [done |].
    eapply wf_same_holdings; [done | | | done | done | done]; by destruct b.
  - eexists. split; [done |].
    eapply wf_same_holdings; [done | done | done | done | | done].
    by apply open_kept_refl.
  - destruct (index (data (shared sys)) name) as [|v rest] eqn:E.
    + rewrite (bind_Done _ _ _ _ _ (pop_none _ name E)).
      destruct hasTimeout; simpl; (eexists; split; [done |]);
        (eapply wf_same_holdings; [done | done | done | done | | done]);
        by apply open_kept_refl.
    + apply index_cons in E. rewrite (bind_Done _ _ _ _ _ (pop_cons _ name v rest E)).
      simpl. eexists. split; [done |].
      eapply wf_same_holdings; [done | done | done | done | | done].
      by apply open_kept_refl.
  - eexists. split; [done |]. by apply wf_register.
  - destruct fired.
    + eexists. split; [done |].
      eapply wf_same_holdings; [done | done | done | done | | done].
      by apply open_kept_refl.
    + pose proof (recv_safe (shared sys) ch) as Hs. unfold bind.
      destruct (recv ch (shared sys)) as [m st'|e st'|c st'];
        [| done | by exists sys].
      destruct Hs as [Hp Hopen]. eexists. split; [done |].
      by eapply wf_same_holdings.
  - destruct (wf_deregister sys i _ name ch (okResp msg) Hi eq_refl W)
      as (st' & Hrm & W').
    rewrite (bind_Done _ _ _ _ _ Hrm). by eexists.
  - destruct (wf_deregister sys i _ name ch notFound Hi eq_refl W)
      as (st' & Hrm & W').
    rewrite (bind_Done _ _ _ _ _ Hrm). by eexists.
  - destruct (wf_close sys i ch r Hi W) as (st' & Hcl & W').
    rewrite (bind_Done _ _ _ _ _ Hcl). by eexists.
  - eexists. split; [done |].
    eapply wf_same_holdings; [done | done | done | done | | done].
    by apply open_kept_refl.
Qed.

Lemma wf_run (evs : list event) :
  forall sys, wf sys -> exists sys', sysRun evs sys = Ok sys' /\ wf sys'.
Proof.
  induction evs as [|e evs IH]; intros sys W; [by exists sys |].
  simpl. destruct (wf_step e sys W) as (sys1 & -> & W1). by apply IH.
Qed.

Lemma reached_wf (evs : list event) (sys : System) :
  sysRun evs initSys = Ok sys -> wf sys.
Proof.
  intros H. destruct (wf_run evs initSys wf_init) as (sys' & H' & W).
  rewrite H in H'. by injection H' as <-.
Qed.

(** X13.  However requests arrive and however the steps of their handlers
    interleave, no handler ever panics: [sendMessage] never indexes an empty
    slice and never sends on a closed channel, [removeFromQueue] is never
    called on a name without entry, and no channel is closed twice. *)
Theorem server_never_panics (evs : list event) :
  exists sys, sysRun evs initSys = Ok sys.
Proof.
  destruct (wf_run evs initSys wf_init) as (sys & H & _). by exists sys.
Qed.

(** X14.  In every state the server reaches, each sequence of the registry
    is non-empty and without duplicates, and each handle in it is an open
    channel made by a GET handler that has registered it under that name and
    has not yet deregistered it. *)
Theorem registry_consistent (evs : list event) (sys : System) :
  sysRun evs initSys = Ok sys ->
  forall name l,
    pool (shared sys) !! name = Some l ->
    l <> [] /\ NoDup l /\
    forall c, c ∈ l ->
      exists id cs i t,
        c = Chan id /\
        chans (shared sys) !! id = Some cs /\ closed cs = false /\
        threads sys !! i = Some t /\ regOf t = Some (name, c).
Proof.
  intros H name l Hl. pose proof (reached_wf evs sys H) as W.
  split; [by eapply (wf_keys sys W) |]. split; [by eapply (wf_nodup sys W) |].
  intros c Hc. destruct (wf_owner sys W name l c Hl Hc) as (i & t & Hi & Hr).
  destruct (wf_open sys W i t c Hi (regOf_chanOf _ _ _ Hr)) as (id & cs & -> & Hcs & Ho).
  by exists id, cs, i, t.
Qed.

(** X15.  No waiter leaks: in every state the server reaches in which no
    GET handler stands between its [addToQueue] and its [removeFromQueue],
    the registry is empty. *)
Theorem no_waiter_leak (evs : list event) (sys : System) :
  sysRun evs initSys = Ok sys ->
  Forall (fun t => regOf t = None) (threads sys) ->
  pool (shared sys) = ∅.
Proof.
  intros H Hall. pose proof (reached_wf evs sys H) as W.
  apply map_empty. intros name.
  destruct (pool (shared sys) !! name) as [[|c l]|] eqn:E; [| | done].
  - by destruct (wf_keys sys W name [] E).
  - destruct (wf_owner sys W name _ c E) as (i & t & Hi & Hr);
      [apply list_elem_of_here |].
    rewrite Forall_lookup in Hall. specialize (Hall i t Hi). congruence.
Qed.

Lemma registry_consistent_witness :
  [Chan 0] <> [] /\ NoDup [Chan 0] /\
  forall c, c ∈ [Chan 0] ->
    exists id cs i t,
      c = Chan id /\
      [mkChan None false] !! id = Some cs /\ closed cs = false /\
      [GetSelect "jobs" (Chan 0) 5000000000] !! i = Some t /\
      regOf t = Some ("jobs", c).
Proof.
  assert (Hrun : sysRun [Arrive MethodGet (mkURL "/jobs" {["timeout" := ["5"]]});
                         Step 0 false; Step 0 false] initSys
                 = Ok (mkSys (mkState ∅ {["jobs" := [Chan 0]]} [mkChan None false])
                         [GetSelect "jobs" (Chan 0) 5000000000])) by reflexivity.
  assert (Hl : pool (shared (mkSys (mkState ∅ {["jobs" := [Chan 0]]} [mkChan None false])
                               [GetSelect "jobs" (Chan 0) 5000000000])) !! "jobs"
               = Some [Chan 0]) by reflexivity.
  exact (registry_consistent _ _ Hrun "jobs" [Chan 0] Hl).
Defined.

Lemma no_waiter_leak_witness :
  pool (mkState ∅ ∅ [mkChan None true]) = ∅.
Proof.
  assert (Hrun : sysRun [Arrive MethodGet (mkURL "/jobs" {["timeout" := ["5"]]});
                         Step 0 false; Step 0 false; Step 0 true; Step 0 true;
                         Step 0 true] initSys
                 = Ok (mkSys (mkState ∅ ∅ [mkChan None true]) [Finished notFound]))
    by reflexivity.
  apply (no_waiter_leak _ _ Hrun). repeat constructor.
Defined.



(** X17.  Round trip through the handlers: on a name with nothing buffered
    and no waiter, a PUT with a non-empty [v] is answered 200 and a GET on
    the same name then answers 200 with exactly that value and leaves the
    state as it was before the PUT. *)
Theorem put_get_roundtrip (st : State) (uPut uGet : URL) (name msg : string) :
  getQueueName uPut = (name, true) ->
  getQueueName uGet = (name, true) ->
  Get (Query uPut) "v" = msg ->
  msg <> "" ->
  pool st !! name = None ->
  data st !! name = None ->
  exists st1,
    putQueueHandler uPut st = Done (okResp "") st1 /\
    getQueueHandler uGet st1 = Done (Replied (okResp msg)) st.
Proof.
  intros Hput Hget Hv Hmsg Hp Hd. eexists. split.
  - unfold putQueueHandler, getQueueMessage. rewrite Hput, Hv. cbn [negb].
    destruct (String.eqb_spec msg "") as [|_]; [done |]. cbn [negb].
    by rewrite (bind_Done _ _ _ _ _ (produce_no_waiter st name msg Hp)).
  - unfold getQueueHandler. rewrite Hget. cbn [negb].
    destruct (getRequestTimeout uGet) as [timeout hasTimeout].
    rewrite (consume_found _ name msg [] timeout hasTimeout).
    + do 2 f_equal. destruct st as [d p c]. unfold set_data. cbn in *. f_equal.
      rewrite delete_insert_eq. by apply delete_id.
    + cbn. rewrite (index_None _ _ Hd). apply lookup_insert_eq.
Qed.

Lemma put_get_roundtrip_witness :
  exists st1,
    putQueueHandler (mkURL "/jobs" {["v" := ["task1"]]}) newState = Done (okResp "") st1 /\
    getQueueHandler (mkURL "/jobs" {["timeout" := ["3"]]}) st1
      = Done (Replied (okResp "task1")) newState.
Proof.
  apply (put_get_roundtrip newState (mkURL "/jobs" {["v" := ["task1"]]})
           (mkURL "/jobs" {["timeout" := ["3"]]}) "jobs" "task1");
    try reflexivity.
  discriminate.
Defined.
